(** * Orthogonal dual Scotch-yoke mechanism: kinematics, time grid and trail

    A shallow embedding of [fourbar_mechanism.py].  The script computes two
    crank pins and the intersection of two perpendicular sliders as closed
    forms of the time [t], samples them over a fixed time grid, and keeps
    the traced path in two parallel Python lists that are cut back to the
    last [trail_max] points on every frame.

    Numbers.  The script computes with NumPy floats.  The kinematics, the
    frame update and the trail are embedded over an arbitrary carrier with
    the operations the script uses (class [Arith]), so what is proved there
    holds whatever these operations are, rounding ones included.  The
    statements about periods and about the golden ratio are about real
    numbers; they are proved for the instance [Arith R] (exact arithmetic,
    [sqrt], [cos] and [sin] of the Standard Library), once with the exact
    constants ([script]) and once with the constants the script really
    stores, which are binary64 numbers ([script_binary64]). *)

From Stdlib Require Import Floats.
From Stdlib Require Import ZArith Reals Lra Lia.
From stdpp Require Import base option list list_numbers.

Local Open Scope Z_scope.

(** ** The numeric interface of the script *)

Class Arith (F : Type) := {
  of_Z : Z -> F;            (* an int literal or variable used as a float *)
  fadd : F -> F -> F;
  fsub : F -> F -> F;
  fmul : F -> F -> F;
  fdiv : F -> F -> F;
  np_sqrt : F -> F;
  np_cos : F -> F;
  np_sin : F -> F
}.

Declare Scope py_scope.
Delimit Scope py_scope with py.
Infix "+" := fadd : py_scope.
Infix "-" := fsub : py_scope.
Infix "*" := fmul : py_scope.
Infix "/" := fdiv : py_scope.

(** ** Python list primitives used by the script *)

Section PyList.
Context {A : Type}.

(** [len(l)] *)
Definition len (l : list A) : Z := Z.of_nat (length l).

(** The end of the slice [l[:k]]: a negative [k] counts from the end, and
    the result is clipped to [0 .. len(l)]. *)
Definition slice_stop (n k : Z) : Z :=
  let k := if k <? 0 then k + n else k in
  if k <? 0 then 0 else if n <? k then n else k.

(** [del l[:k]] *)
Definition del_front (k : Z) (l : list A) : list A :=
  drop (Z.to_nat (slice_stop (len l) k)) l.

(** [l[i]] for an integer [i]: negative indices count from the end, an
    index outside [-len(l) .. len(l)-1] raises [IndexError] ([None]). *)
Definition py_index (l : list A) (i : Z) : option A :=
  if (0 <=? i) && (i <? len l) then l !! Z.to_nat i
  else if (- len l <=? i) && (i <? 0) then l !! Z.to_nat (i + len l)
  else None.

(** [l[-1] = v] on a non-empty [l] (the only use is in [linspace]). *)
Definition set_last (v : A) (l : list A) : list A :=
  <[pred (length l) := v]> l.
End PyList.

(** ** The trail: lines 117-121 of [update]

    [trail_x] and [trail_y] are two parallel lists.  [overflow] is the test
    of line 119, [append_trail] the two appends followed by the guarded
    deletion of the oldest entries. *)

Section Trail.
Context {A : Type}.

Definition Trail : Type := list A * list A.

Definition overflow (trail_max : Z) (trail_x : list A) : bool :=
  trail_max <? len trail_x.

Definition append_trail (trail_max : Z) (p : A * A) (b : Trail) : Trail :=
  let trail_x := b.1 ++ [p.1] in
  let trail_y := b.2 ++ [p.2] in
  if overflow trail_max trail_x
  then (del_front (len trail_x - trail_max) trail_x,
        del_front (len trail_y - trail_max) trail_y)
  else (trail_x, trail_y).

(** A run of append calls, oldest first. *)
Definition appends (trail_max : Z) (b : Trail) (ps : list (A * A)) : Trail :=
  foldl (fun b p => append_trail trail_max p b) b ps.

(** The buffer read as a sequence of points. *)
Definition points (b : Trail) : list (A * A) := zip b.1 b.2.

(** The last [n] elements of a list, in their order. *)
Definition last_points {B : Type} (n : nat) (l : list B) : list B :=
  drop (length l - n)%nat l.
End Trail.

Arguments Trail : clear implicits.

(** ** Module-level constants, kinematics, time grid and frame update *)

Section Mechanism.
Context {F : Type} `{Arith F}.

(** The constants of lines 17-33.  [omega_y] and [N] are derived. *)
Record Globals : Type := {
  Rx : F;
  Ry : F;
  omega_x : F;
  phi_x : F;
  phi : F;
  phi_y : F;
  T : Z;
  fps : Z;
  trail_max : Z
}.

Definition omega_y (g : Globals) : F := (phi g * omega_x g)%py.

(** [N = int(T * fps)]: [T] and [fps] are Python ints, so is the product. *)
Definition N (g : Globals) : Z := T g * fps g.

(** The values the script gives them. *)
Definition script : Globals := {|
  Rx := of_Z 3;
  Ry := of_Z 2;
  omega_x := of_Z 1;
  phi_x := of_Z 0;
  phi := ((of_Z 1 + np_sqrt (of_Z 5)) / of_Z 2)%py;
  phi_y := of_Z 0;
  T := 60;
  fps := 20;
  trail_max := 8000
|}.

(** Kinematics helpers (lines 38-50). *)
Definition crank_pin_x (g : Globals) (t : F) : F * F :=
  ((Rx g * np_cos (omega_x g * t + phi_x g))%py,
   (Rx g * np_sin (omega_x g * t + phi_x g))%py).

Definition crank_pin_y (g : Globals) (t : F) : F * F :=
  ((Ry g * np_cos (omega_y g * t + phi_y g))%py,
   (Ry g * np_sin (omega_y g * t + phi_y g))%py).

Definition sliders_intersection (g : Globals) (t : F) : F * F :=
  let x := (Rx g * np_cos (omega_x g * t + phi_x g))%py in
  let y := (Ry g * np_sin (omega_y g * t + phi_y g))%py in
  (x, y).

(** [np.linspace(start, stop, num)] with the end point included: [num]
    samples [i * step + start] with [step = (stop - start) / (num - 1)],
    the last one set to [stop] itself; a negative [num] raises
    [ValueError] ([None]).  With a single sample there is no step and the
    sample is [start].  (When the step is zero NumPy divides the indices
    before it multiplies; over the reals the samples are the same.) *)
Definition linspace (start stop : F) (num : Z) : option (list F) :=
  if num <? 0 then None
  else
    let div := num - 1 in
    let delta := (stop - start)%py in
    let y := of_Z <$> seqZ 0 num in
    let y := if 0 <? div
             then (fun v => v * (delta / of_Z div))%py <$> y
             else (fun v => v * delta)%py <$> y in
    let y := (fun v => v + start)%py <$> y in
    Some (if 1 <? num then set_last stop y else y).

(** Line 80. *)
Definition t_values (g : Globals) : option (list F) :=
  linspace (of_Z 0) (of_Z (T g)) (N g).

(** The data of a line artist: what [set_data] stored last. *)
Definition Artist : Type := list F * list F.

(** The mutable state: the two trail lists and the six artists. *)
Record State : Type := {
  trail_x : list F;
  trail_y : list F;
  link1 : Artist;
  link2 : Artist;
  slider_x_marker : Artist;
  slider_y_marker : Artist;
  trace_point : Artist;
  trail_line : Artist
}.

(** The state after the module body has run (lines 34, 71-76). *)
Definition initial : State := {|
  trail_x := []; trail_y := [];
  link1 := ([], []); link2 := ([], []);
  slider_x_marker := ([], []); slider_y_marker := ([], []);
  trace_point := ([], []); trail_line := ([], [])
|}.

(** [init()] (lines 84-91) clears the artists and leaves the trail. *)
Definition init (st : State) : State := {|
  trail_x := trail_x st; trail_y := trail_y st;
  link1 := ([], []); link2 := ([], []);
  slider_x_marker := ([], []); slider_y_marker := ([], []);
  trace_point := ([], []); trail_line := ([], [])
|}.

(** [update(frame)] (lines 95-124); [None] is an exception. *)
Definition update (g : Globals) (frame : Z) (st : State) : option State :=
  tv ← t_values g;
  t ← py_index tv frame;
  let '(cx1, cy1) := crank_pin_x g t in
  let '(cx2, cy2) := crank_pin_y g t in
  let '(x, y) := sliders_intersection g t in
  let '(tx, ty) := append_trail (trail_max g) (x, y) (trail_x st, trail_y st) in
  Some {|
    trail_x := tx; trail_y := ty;
    link1 := ([of_Z 0; cx1], [of_Z 0; cy1]);
    link2 := ([of_Z 0; cx2], [of_Z 0; cy2]);
    slider_x_marker := ([x], [of_Z 0]);
    slider_y_marker := ([of_Z 0], [y]);
    trace_point := ([x], [y]);
    trail_line := (tx, ty)
  |}.

(** [update] called on a sequence of frame indices, in order. *)
Fixpoint play (g : Globals) (fs : list Z) (st : State) : option State :=
  match fs with
  | [] => Some st
  | frame :: fs => st' ← update g frame st; play g fs st'
  end.

(** [frames=N]: the animation draws the frames [range(N)]. *)
Definition frames (g : Globals) : list Z := seqZ 0 (N g).

(** One pass of the animation: [init()], then every frame once. *)
Definition frame_loop (g : Globals) (st : State) : option State :=
  play g (frames g) (init st).

(** The trail of a state as a buffer, and the point traced at a frame. *)
Definition trail (st : State) : Trail F := (trail_x st, trail_y st).
End Mechanism.

Arguments Globals F : clear implicits.
Arguments State F : clear implicits.

(** ** Reading a run of frames

    [traced g frame p]: [update(frame)] finds its time in the grid and [p]
    is the point it traces there. *)
Definition traced {F : Type} `{Arith F} (g : Globals F) (frame : Z) (p : F * F) : Prop :=
  exists tv t, t_values g = Some tv /\ py_index tv frame = Some t /\
    p = sliders_intersection g t.

(** The script with other values for [T], [fps] and [trail_max]. *)
Definition with_limits {F : Type} (g : Globals F) (T' fps' trail_max' : Z) : Globals F := {|
  Rx := Rx g; Ry := Ry g; omega_x := omega_x g; phi_x := phi_x g;
  phi := phi g; phi_y := phi_y g;
  T := T'; fps := fps'; trail_max := trail_max'
|}.

(** * Exact arithmetic: the script over the real numbers

    [np.sqrt] is only applied to [5] and the only divisors are [2] and
    [N - 1]; on a negative argument NumPy gives [nan] where [sqrt] gives
    [0], and the quotient by zero is not specified here.  With this
    instance [script] holds the exact constants, [phi] the golden ratio
    itself; the constants the script stores are those of
    [script_binary64] below. *)

#[export] Instance R_arith : Arith R := {|
  of_Z := IZR;
  fadd := Rplus;
  fsub := Rminus;
  fmul := Rmult;
  fdiv := Rdiv;
  np_sqrt := sqrt;
  np_cos := cos;
  np_sin := sin
|}.

(** Reads the operations of [Arith R] as those of the reals, leaving the
    constants of the script folded. *)
Ltac real_ops :=
  unfold sliders_intersection, crank_pin_x, crank_pin_y in *;
  change (@of_Z R R_arith) with IZR in *;
  change (@fadd R R_arith) with Rplus in *;
  change (@fsub R R_arith) with Rminus in *;
  change (@fmul R R_arith) with Rmult in *;
  change (@fdiv R R_arith) with Rdiv in *;
  change (@np_sqrt R R_arith) with sqrt in *;
  change (@np_cos R R_arith) with cos in *;
  change (@np_sin R R_arith) with sin in *;
  cbn [fst snd] in *.

(** A real number that is no quotient of two integers. *)
Definition irrational (x : R) : Prop :=
  forall p q : Z, q <> 0 -> x <> (IZR p / IZR q)%R.

(** [t |-> f t] comes back to itself after [P]. *)
Definition period_of {B : Type} (f : R -> B) (P : R) : Prop :=
  forall t : R, f (t + P)%R = f t.

(** ** The animation on repeat and the plot limits

    Lines 126-127 start the animation with [init_func=init] and
    [repeat=True]: when the frames of one pass are exhausted the animation
    calls [init()] again and starts over with frame [0].  [passes g k] is
    [k] such passes in a row. *)
Fixpoint passes {F : Type} `{Arith F} (g : Globals F) (k : nat) (st : State F) : option (State F) :=
  match k with
  | O => Some st
  | S k => st' ← frame_loop g st; passes g k st'
  end.

(** The axes limits of lines 58-59, over the reals. *)
Definition xlim (g : Globals R) : R * R := (- Rx g - 1.5, Rx g + 1.5)%R.

Definition ylim (g : Globals R) : R * R := (- Ry g - 1.5, Ry g + 1.5)%R.

(** A point that lies strictly inside the plotted rectangle. *)
Definition in_view (g : Globals R) (p : R * R) : Prop :=
  ((xlim g).1 < p.1 < (xlim g).2 /\ (ylim g).1 < p.2 < (ylim g).2)%R.

(** ** The constants the script stores

    The script keeps its constants as binary64 numbers.  [binary64_value]
    is the real number a finite binary64 number stands for;
    [phi_binary64] is line 23 and [omega_y_binary64] line 24 evaluated in
    binary64 arithmetic (the ints [1], [5], [2] become floats, [omega_x] is
    [1.0]).  [script_binary64] holds the stored constants; its [omega_y],
    the exact product of the stored [phi] and [omega_x], is the stored one
    (lemma [stored_omega_y]). *)
Definition binary64_value (f : float) : R :=
  match Prim2SF f with
  | S754_finite s m e =>
      let z := if s then Z.neg m else Z.pos m in
      if 0 <=? e then IZR (z * 2 ^ e) else (IZR z / IZR (2 ^ (- e)))%R
  | _ => 0%R
  end.

Definition phi_binary64 : float := ((1 + PrimFloat.sqrt 5) / 2)%float.

Definition omega_y_binary64 : float := (phi_binary64 * 1)%float.

Definition script_binary64 : Globals R := {|
  Rx := binary64_value 3;
  Ry := binary64_value 2;
  omega_x := binary64_value 1;
  phi_x := binary64_value 0;
  phi := binary64_value phi_binary64;
  phi_y := binary64_value 0;
  T := 60;
  fps := 20;
  trail_max := 8000
|}.

(** Evaluates [binary64_value] on a closed binary64 number. *)
Ltac binary64_eval :=
  unfold binary64_value;
  match goal with
  | |- context [Prim2SF ?f] =>
      let sf := eval vm_compute in (Prim2SF f) in
      replace (Prim2SF f) with sf by (vm_compute; reflexivity)
  end;
  cbv beta iota zeta;
  repeat match goal with
  | |- context [(0 <=? ?e)%Z] =>
      let b := eval vm_compute in (0 <=? e)%Z in
      change (0 <=? e)%Z with b; cbv iota
  | |- context [(2 ^ ?k)%Z] =>
      let v := eval vm_compute in (2 ^ k)%Z in
      change (2 ^ k)%Z with v
  end.

(** * Facts about the Python list primitives *)

Section PyListFacts.
Context {A : Type}.
Implicit Types (l : list A) (k i : Z).

Lemma slice_stop_nonneg n k :
  0 <= n -> 0 <= k -> slice_stop n k = Z.min k n.
Proof.
  intros Hn Hk. unfold slice_stop.
  rewrite (proj2 (Z.ltb_ge k 0)) by done. cbv zeta.
  rewrite (proj2 (Z.ltb_ge k 0)) by done.
  destruct (Z.ltb_spec n k); lia.
Qed.

Lemma del_front_drop k l :
  0 <= k -> del_front k l = drop (Z.to_nat k) l.
Proof.
  intros Hk. unfold del_front, len.
  rewrite slice_stop_nonneg by lia.
  destruct (Z.le_gt_cases k (Z.of_nat (length l))) as [Hle|Hgt].
  - by rewrite Z.min_l.
  - rewrite Z.min_r, Nat2Z.id, drop_all by lia.
    symmetry. apply drop_ge. lia.
Qed.

Lemma py_index_in_range l i :
  0 <= i < len l -> py_index l i = l !! Z.to_nat i.
Proof.
  intros [H0 H1]. unfold py_index.
  destruct (Z.leb_spec 0 i); [|lia].
  destruct (Z.ltb_spec i (len l)); [done|lia].
Qed.

Lemma py_index_is_Some l i :
  0 <= i < len l -> is_Some (py_index l i).
Proof.
  intros Hi. rewrite py_index_in_range by done.
  apply lookup_lt_is_Some. unfold len in Hi. lia.
Qed.

Lemma py_index_of_nat l (n : nat) x :
  l !! n = Some x -> py_index l (Z.of_nat n) = Some x.
Proof.
  intros Hx. pose proof (lookup_lt_Some _ _ _ Hx).
  rewrite py_index_in_range by (unfold len; lia).
  by rewrite Nat2Z.id.
Qed.

Lemma length_set_last v l : length (set_last v l) = length l.
Proof. apply length_insert. Qed.

Lemma set_last_lookup_last v l :
  l <> [] -> set_last v l !! pred (length l) = Some v.
Proof.
  intros Hl. apply list_lookup_insert_eq.
  destruct l; [done|simpl; lia].
Qed.

Lemma set_last_lookup_other v l (n : nat) :
  n <> pred (length l) -> set_last v l !! n = l !! n.
Proof. intros Hn. by apply list_lookup_insert_ne. Qed.
End PyListFacts.

(** * The trail keeps the last [trail_max] points *)

Section TrailFacts.
Context {A : Type}.
Implicit Types (b : Trail A) (p : A * A) (ps : list (A * A)) (m : Z).

Lemma length_last_points {B} (n : nat) (l : list B) :
  length (last_points n l) = Nat.min (length l) n.
Proof. unfold last_points. rewrite length_drop. lia. Qed.

Lemma last_points_all {B} (n : nat) (l : list B) :
  (length l <= n)%nat -> last_points n l = l.
Proof.
  intros Hn. unfold last_points.
  by replace (length l - n)%nat with 0%nat by lia.
Qed.

Lemma last_points_snoc {B} (n : nat) (l : list B) x :
  last_points n (last_points n l ++ [x]) = last_points n (l ++ [x]).
Proof.
  destruct (Nat.le_gt_cases (length l) n) as [Hle|Hgt].
  - by rewrite (last_points_all n l).
  - unfold last_points.
    set (d := drop (length l - n) l).
    assert (Hd : length d = n) by (subst d; rewrite length_drop; lia).
    rewrite !length_app, Hd. simpl.
    replace (n + 1 - n)%nat with 1%nat by lia.
    replace (length l + 1 - n)%nat with (length l - n + 1)%nat by lia.
    rewrite <- (drop_drop (l ++ [x]) 1 (length l - n)).
    rewrite (drop_app_le l [x] (length l - n)) by lia. done.
Qed.

Lemma last_points_min {B} (n : nat) (l : list B) :
  last_points (Nat.min (length l) n) l = last_points n l.
Proof. unfold last_points. f_equal. lia. Qed.

Lemma zip_last_points {B C} (n : nat) (l : list B) (k : list C) :
  length l = length k ->
  zip (last_points n l) (last_points n k) = last_points n (zip l k).
Proof.
  intros Hlen. unfold last_points.
  rewrite length_zip_with, <- Hlen, Nat.min_id.
  symmetry. apply zip_with_drop.
Qed.

(** One append, when both lists have the same length and the capacity is
    not negative: each list becomes the last [trail_max] entries of itself
    extended by the new coordinate. *)
Lemma append_trail_last m p b :
  0 <= m -> length b.1 = length b.2 ->
  append_trail m p b =
    (last_points (Z.to_nat m) (b.1 ++ [p.1]),
     last_points (Z.to_nat m) (b.2 ++ [p.2])).
Proof.
  intros Hm Hlen. unfold append_trail, overflow.
  assert (Hl : len (b.2 ++ [p.2]) = len (b.1 ++ [p.1]))
    by (unfold len; rewrite !length_app, Hlen; done).
  rewrite Hl.
  destruct (Z.ltb_spec m (len (b.1 ++ [p.1]))) as [Hlt|Hge].
  - rewrite !del_front_drop by lia.
    unfold last_points. unfold len in *.
    assert (length (b.2 ++ [p.2]) = length (b.1 ++ [p.1])) as -> by lia.
    repeat f_equal; lia.
  - unfold len in *.
    rewrite !last_points_all; [done|lia..].
Qed.

Lemma append_trail_lengths m p b :
  length b.1 = length b.2 ->
  length (append_trail m p b).1 = length (append_trail m p b).2.
Proof.
  intros Hlen. unfold append_trail.
  assert (Hl : length (b.1 ++ [p.1]) = length (b.2 ++ [p.2]))
    by (rewrite !length_app, Hlen; done).
  destruct (overflow m (b.1 ++ [p.1])); simpl; [|done].
  unfold del_front, len. rewrite !length_drop, Hl. done.
Qed.

Lemma appends_snoc m b ps p :
  appends m b (ps ++ [p]) = append_trail m p (appends m b ps).
Proof. unfold appends. by rewrite foldl_snoc. Qed.

Lemma appends_lengths m b ps :
  length b.1 = length b.2 ->
  length (appends m b ps).1 = length (appends m b ps).2.
Proof.
  intros Hb. induction ps as [|p ps IH] using rev_ind; [done|].
  rewrite appends_snoc. by apply append_trail_lengths.
Qed.

(** A run of appends from the empty trail. *)
Lemma appends_last m ps :
  0 <= m ->
  appends m ([], []) ps =
    (last_points (Z.to_nat m) ps.*1, last_points (Z.to_nat m) ps.*2).
Proof.
  intros Hm. induction ps as [|p ps IH] using rev_ind; [done|].
  rewrite appends_snoc, append_trail_last; [|done|by apply appends_lengths].
  rewrite IH. simpl. rewrite !fmap_app, !last_points_snoc. done.
Qed.

Lemma points_appends m ps :
  0 <= m -> points (appends m ([], []) ps) = last_points (Z.to_nat m) ps.
Proof.
  intros Hm. rewrite appends_last by done. unfold points. simpl.
  rewrite zip_last_points by (by rewrite !length_fmap).
  by rewrite zip_fst_snd.
Qed.
End TrailFacts.

(** * The time grid, the frame update and the frame loop *)

Section MechanismFacts.
Context {F : Type} `{Arith F}.
Implicit Types (g : Globals F) (st : State F) (tv : list F) (fs : list Z).

Lemma linspace_is_Some (start stop : F) num :
  0 <= num -> is_Some (linspace start stop num).
Proof.
  intros Hnum. unfold linspace.
  rewrite (proj2 (Z.ltb_ge num 0)) by done. by eexists.
Qed.

Lemma linspace_len (start stop : F) num tv :
  linspace start stop num = Some tv -> len tv = num.
Proof.
  unfold linspace, len. destruct (Z.ltb_spec num 0) as [|Hnum]; [done|].
  intros [= <-].
  destruct (1 <? num), (0 <? num - 1);
    rewrite ?length_set_last, !length_fmap, length_seqZ; lia.
Qed.

Lemma linspace_last (start stop : F) num tv :
  1 < num -> linspace start stop num = Some tv ->
  tv !! Z.to_nat (num - 1) = Some stop.
Proof.
  intros Hnum. unfold linspace.
  rewrite (proj2 (Z.ltb_ge num 0)), (proj2 (Z.ltb_lt 1 num)) by lia.
  cbv zeta. set (y := _ <$> _). intros [= <-].
  assert (Hy : length y = Z.to_nat num).
  { subst y. destruct (0 <? num - 1); by rewrite !length_fmap, length_seqZ. }
  replace (Z.to_nat (num - 1)) with (pred (length y)) by lia.
  apply set_last_lookup_last.
  intros Hnil. rewrite Hnil in Hy. simpl in Hy. lia.
Qed.

Lemma t_values_len g tv : t_values g = Some tv -> len tv = N g.
Proof. apply linspace_len. Qed.

Lemma frame_loop_play g : frame_loop g initial = play g (frames g) initial.
Proof. done. Qed.

(** What a successful [update] does to the trail. *)
Lemma update_Some g frame st tv t :
  t_values g = Some tv -> py_index tv frame = Some t ->
  exists st', update g frame st = Some st' /\
    trail st' = append_trail (trail_max g) (sliders_intersection g t) (trail st).
Proof.
  intros Htv Ht. unfold update. rewrite Htv. simpl. rewrite Ht. simpl.
  unfold trail.
  destruct (append_trail _ _ _) as [tx ty]. by eexists.
Qed.

Lemma update_inv g frame st st' :
  update g frame st = Some st' ->
  exists tv t, t_values g = Some tv /\ py_index tv frame = Some t /\
    trail st' = append_trail (trail_max g) (sliders_intersection g t) (trail st).
Proof.
  intros Hup. destruct (t_values g) as [tv|] eqn:Htv;
    [|by unfold update in Hup; rewrite Htv in Hup].
  destruct (py_index tv frame) as [t|] eqn:Ht;
    [|by unfold update in Hup; rewrite Htv in Hup; simpl in Hup; rewrite Ht in Hup].
  destruct (update_Some g frame st tv t Htv Ht) as (st'' & Hup' & Htr).
  exists tv, t. by simplify_eq.
Qed.

(** A run over frames that are all in the grid never fails, and its trail
    is the run of appends of the points traced at these frames. *)
Lemma play_trail g tv fs ts st :
  t_values g = Some tv ->
  Forall2 (fun f t => py_index tv f = Some t) fs ts ->
  exists st', play g fs st = Some st' /\
    trail st' = appends (trail_max g) (trail st) (sliders_intersection g <$> ts).
Proof.
  intros Htv Hfs. revert st.
  induction Hfs as [|f t fs ts Hf _ IH]; intros st; [by eexists|].
  destruct (update_Some g f st tv t Htv Hf) as (st1 & Hup & Htr).
  destruct (IH st1) as (st' & Hplay & Htr').
  exists st'. simpl. rewrite Hup. simpl. split; [done|].
  rewrite Htr', Htr. done.
Qed.

Lemma play_lengths g fs st st' :
  length (trail_x st) = length (trail_y st) ->
  play g fs st = Some st' ->
  length (trail_x st') = length (trail_y st').
Proof.
  revert st. induction fs as [|f fs IH]; intros st Hlen Hplay.
  - by simplify_eq/=.
  - simpl in Hplay. destruct (update g f st) as [st1|] eqn:Hup; [|done].
    apply (IH st1); [|done].
    destruct (update_inv _ _ _ _ Hup) as (tv & t & _ & _ & Htr).
    pose proof (append_trail_lengths (trail_max g) (sliders_intersection g t)
                  (trail st) Hlen) as Hl.
    rewrite <- Htr in Hl. done.
Qed.

(** The first [k] frames of [range(N)] meet the first [k] grid values. *)
Lemma frames_prefix_grid tv (k : nat) :
  (k <= length tv)%nat ->
  Forall2 (fun f t => py_index tv f = Some t) (seqZ 0 (Z.of_nat k)) (take k tv).
Proof.
  intros Hk. apply Forall2_same_length_lookup. split.
  - rewrite length_seqZ, length_take. lia.
  - intros i f t Hf Ht. apply lookup_seqZ in Hf as [-> _].
    rewrite lookup_take_Some in Ht. destruct Ht as [Ht _].
    by apply py_index_of_nat.
Qed.

Lemma frames_grid g tv :
  t_values g = Some tv ->
  Forall2 (fun f t => py_index tv f = Some t) (frames g) tv.
Proof.
  intros Htv. pose proof (t_values_len g tv Htv) as Hlen. unfold len in Hlen.
  unfold frames. rewrite <- Hlen.
  pose proof (frames_prefix_grid tv (length tv) (Nat.le_refl _)) as Hfs.
  by rewrite firstn_all in Hfs.
Qed.

(** The state after the first [k] frames, from the empty trail. *)
Lemma play_prefix g tv (k : nat) :
  t_values g = Some tv -> 0 <= trail_max g -> (k <= length tv)%nat ->
  exists st, play g (seqZ 0 (Z.of_nat k)) (init initial) = Some st /\
    trail_x st = last_points (Z.to_nat (trail_max g))
                   (sliders_intersection g <$> take k tv).*1 /\
    trail_y st = last_points (Z.to_nat (trail_max g))
                   (sliders_intersection g <$> take k tv).*2.
Proof.
  intros Htv Hm Hk.
  destruct (play_trail g tv _ _ (init initial) Htv (frames_prefix_grid tv k Hk))
    as (st & Hplay & Htr).
  exists st. split; [done|].
  change (trail (init initial)) with (([], []) : Trail F) in Htr.
  rewrite appends_last in Htr by done.
  by injection Htr.
Qed.

(** One pass of the animation from the empty trail. *)
Lemma frame_loop_trail g tv :
  t_values g = Some tv -> 0 <= trail_max g ->
  exists st, frame_loop g initial = Some st /\
    points (trail st) =
      last_points (Z.to_nat (trail_max g)) (sliders_intersection g <$> tv).
Proof.
  intros Htv Hm.
  destruct (play_trail g tv _ _ (init initial) Htv (frames_grid g tv Htv))
    as (st & Hplay & Htr).
  exists st. split; [done|].
  rewrite Htr. change (trail (init initial)) with (([], []) : Trail F).
  by apply points_appends.
Qed.

(** Conversely, a run that succeeded appended one traced point per frame. *)
Lemma play_inv g fs st st' :
  play g fs st = Some st' ->
  exists ps, Forall2 (traced g) fs ps /\
    trail st' = appends (trail_max g) (trail st) ps.
Proof.
  revert st. induction fs as [|f fs IH]; intros st Hplay.
  - exists []. by simplify_eq/=.
  - simpl in Hplay. destruct (update g f st) as [st1|] eqn:Hup; [|done].
    destruct (update_inv _ _ _ _ Hup) as (tv & t & Htv & Ht & Htr).
    destruct (IH st1 Hplay) as (ps & Hps & Htr').
    exists (sliders_intersection g t :: ps). split.
    + constructor; [by exists tv, t|done].
    + rewrite Htr', Htr. done.
Qed.

(** Every frame index the animation hands to [update] is in the grid. *)
Lemma update_in_range g frame st :
  0 <= frame < N g -> is_Some (update g frame st).
Proof.
  intros Hf.
  destruct (linspace_is_Some (of_Z 0) (of_Z (T g)) (N g)) as [tv Htv]; [lia|].
  pose proof (t_values_len g tv Htv) as Hlen.
  destruct (py_index_is_Some tv frame) as [t Ht]; [lia|].
  destruct (update_Some g frame st tv t Htv Ht) as (st' & Hup & _).
  by exists st'.
Qed.

(** The first sample of a grid of at least two. *)
Lemma linspace_first (start stop : F) num tv :
  1 < num -> linspace start stop num = Some tv ->
  tv !! 0%nat =
    Some (of_Z 0 * ((stop - start) / of_Z (num - 1)) + start)%py.
Proof.
  intros Hnum. unfold linspace.
  rewrite (proj2 (Z.ltb_ge num 0)), (proj2 (Z.ltb_lt 1 num)),
    (proj2 (Z.ltb_lt 0 (num - 1))) by lia.
  intros [= <-].
  rewrite set_last_lookup_other
    by (rewrite !length_fmap, length_seqZ; lia).
  rewrite !list_lookup_fmap, lookup_seqZ_lt by lia. done.
Qed.
End MechanismFacts.

(** * Incommensurable frequencies *)

Section Irrationality.

(** No integer square is five times a non-zero square, by descent: from
    [a * a = 5 * (b * b)] with [0 < b] one gets [2 b < |a| < 3 b], and
    [(5 b - 2 |a|, |a| - 2 b)] is a smaller solution. *)
Lemma no_square_five_upto (n : nat) :
  forall a b : Z, 0 < b <= Z.of_nat n -> a * a <> 5 * (b * b).
Proof.
  induction n as [|n IH]; intros a b Hb Heq; [lia|].
  set (a0 := Z.abs a).
  assert (Ha0 : a0 * a0 = 5 * (b * b)) by (subst a0; lia).
  assert (H0 : 0 <= a0) by (subst a0; lia).
  clearbody a0. clear Heq a.
  assert (Hlo : 2 * b < a0) by nia.
  assert (Hhi : a0 < 3 * b) by nia.
  apply (IH (5 * b - 2 * a0) (a0 - 2 * b)); [lia|nia].
Qed.

Lemma no_square_five (a b : Z) : b <> 0 -> a * a <> 5 * (b * b).
Proof.
  intros Hb Heq.
  apply (no_square_five_upto (Z.to_nat (Z.abs b)) a (Z.abs b)); lia.
Qed.

Lemma sqrt5_sq : (sqrt 5 * sqrt 5 = 5)%R.
Proof. apply sqrt_sqrt. lra. Qed.

Lemma golden_ratio_irrational : irrational ((1 + sqrt 5) / 2)%R.
Proof.
  intros p q Hq Heq.
  assert (HqR : IZR q <> 0%R) by (by apply not_0_IZR).
  assert (Hs : (sqrt 5 * IZR q = 2 * IZR p - IZR q)%R).
  { apply (f_equal (fun r => (2 * r * IZR q)%R)) in Heq.
    field_simplify in Heq; [|done]. lra. }
  apply (no_square_five (2 * p - q) q Hq).
  apply eq_IZR. rewrite !mult_IZR, minus_IZR, mult_IZR.
  rewrite <- Hs.
  transitivity ((sqrt 5 * sqrt 5) * (IZR q * IZR q))%R; [ring|].
  by rewrite sqrt5_sq.
Qed.
End Irrationality.

Section Periods.
Local Open Scope R_scope.

Lemma cos_even_PI (j : Z) : cos (2 * IZR j * PI) = 1.
Proof.
  assert (Hnat : forall k : nat, cos (2 * INR k * PI) = 1).
  { intros k. rewrite <- (Rplus_0_l (2 * INR k * PI)), cos_period.
    apply cos_0. }
  destruct (Z.le_gt_cases 0 j) as [Hj|Hj].
  - rewrite <- (Z2Nat.id j Hj), <- INR_IZR_INZ. apply Hnat.
  - rewrite <- cos_neg.
    replace (- (2 * IZR j * PI)) with (2 * IZR (- j) * PI)
      by (rewrite opp_IZR; ring).
    rewrite <- (Z2Nat.id (- j)), <- INR_IZR_INZ by lia. apply Hnat.
Qed.

Lemma cos_eq_1_inv (x : R) : cos x = 1 -> exists j : Z, x = 2 * IZR j * PI.
Proof.
  intros Hc.
  assert (Hs : sin x = 0).
  { pose proof (sin2_cos2 x) as Hsq. unfold Rsqr in Hsq.
    rewrite Hc in Hsq. nra. }
  destruct (sin_eq_0_0 x Hs) as [k ->].
  destruct (Z.Even_or_Odd k) as [[j ->]|[j ->]].
  - exists j. rewrite mult_IZR. ring.
  - exfalso. revert Hc.
    replace (IZR (2 * j + 1) * PI) with (2 * IZR j * PI + PI)
      by (rewrite plus_IZR, mult_IZR; ring).
    rewrite neg_cos, cos_even_PI. lra.
Qed.

(** Two angles with the same cosine and the same sine differ by a whole
    number of turns. *)
Lemma same_angle (a b : R) :
  cos a = cos b -> sin a = sin b -> exists j : Z, a - b = 2 * IZR j * PI.
Proof.
  intros Hc Hs. apply cos_eq_1_inv.
  rewrite cos_minus, Hc, Hs.
  pose proof (sin2_cos2 b) as Hsq. unfold Rsqr in Hsq. lra.
Qed.

(** Two frequencies whose turns coincide over a non-zero time span have a
    rational ratio. *)
Lemma commensurable (wx wy d : R) (j k : Z) :
  wx <> 0 -> d <> 0 ->
  wx * d = 2 * IZR j * PI -> wy * d = 2 * IZR k * PI ->
  wy / wx = IZR k / IZR j /\ j <> 0%Z.
Proof.
  intros Hwx Hd Hj Hk. pose proof PI_RGT_0 as Hpi.
  assert (Hj0 : j <> 0%Z).
  { intros ->. rewrite Rmult_0_r, Rmult_0_l in Hj.
    destruct (Rmult_integral _ _ Hj); done. }
  split; [|done].
  assert (HjR : IZR j <> 0) by (by apply not_0_IZR).
  assert (Hcross : wy * IZR j = IZR k * wx).
  { apply (Rmult_eq_reg_r (2 * PI * d)).
    - transitivity ((wy * d) * (2 * IZR j * PI)); [ring|].
      rewrite Hk, <- Hj. ring.
    - intros H0. apply Rmult_integral in H0 as [H0|H0]; [lra|done]. }
  field_simplify_eq; [|done]. lra.
Qed.
End Periods.

(** * Periods of the traced curve over the reals *)

Section RealMechanism.
Local Open Scope R_scope.
Variable g : Globals R.

Lemma sliders_x_period :
  omega_x g <> 0 ->
  period_of (fun t => (sliders_intersection g t).1) (2 * PI / omega_x g).
Proof.
  intros Hwx t. real_ops. f_equal.
  replace (omega_x g * (t + 2 * PI / omega_x g) + phi_x g)
    with (omega_x g * t + phi_x g + 2 * PI) by (by field).
  rewrite cos_plus, cos_2PI, sin_2PI. ring.
Qed.

Lemma sliders_y_period :
  omega_y g <> 0 ->
  period_of (fun t => (sliders_intersection g t).2) (2 * PI / omega_y g).
Proof.
  intros Hwy t. real_ops. f_equal.
  replace (omega_y g * (t + 2 * PI / omega_y g) + phi_y g)
    with (omega_y g * t + phi_y g + 2 * PI) by (by field).
  rewrite sin_plus, cos_2PI, sin_2PI. ring.
Qed.

Hypothesis HRx : Rx g <> 0.
Hypothesis HRy : Ry g <> 0.
Hypothesis Hwx : omega_x g <> 0.
Hypothesis Hratio : irrational (omega_y g / omega_x g).

Lemma omega_y_nonzero : omega_y g <> 0.
Proof.
  intros Hwy. apply (Hratio 0%Z 1%Z); [done|].
  rewrite Hwy. by field.
Qed.

(** Over a non-zero time span the two cranks cannot both make whole
    numbers of turns. *)
Lemma turns_incommensurable (d : R) (j k : Z) :
  omega_x g * d = 2 * IZR j * PI -> omega_y g * d = 2 * IZR k * PI -> d = 0.
Proof.
  intros Hj Hk. destruct (Req_dec d 0) as [|Hd]; [done|].
  destruct (commensurable _ _ _ _ _ Hwx Hd Hj Hk) as [Heq Hj0].
  by destruct (Hratio k j Hj0).
Qed.

(** The traced point has no period but [0]. *)
Lemma sliders_no_period (P : R) :
  period_of (sliders_intersection g) P -> P = 0.
Proof.
  intros HP. pose proof omega_y_nonzero as Hwy.
  assert (Hx : cos (omega_x g * P) = 1).
  { pose proof (f_equal fst (HP (- phi_x g / omega_x g))) as Hx.
    real_ops. apply Rmult_eq_reg_l in Hx; [|done].
    replace (omega_x g * (- phi_x g / omega_x g + P) + phi_x g)
      with (omega_x g * P) in Hx by (by field).
    replace (omega_x g * (- phi_x g / omega_x g) + phi_x g)
      with 0 in Hx by (by field).
    by rewrite cos_0 in Hx. }
  assert (Hy : cos (omega_y g * P) = 1).
  { pose proof (f_equal snd (HP ((PI / 2 - phi_y g) / omega_y g))) as Hy.
    real_ops. apply Rmult_eq_reg_l in Hy; [|done].
    replace (omega_y g * ((PI / 2 - phi_y g) / omega_y g + P) + phi_y g)
      with (PI / 2 + omega_y g * P) in Hy by (by field).
    replace (omega_y g * ((PI / 2 - phi_y g) / omega_y g) + phi_y g)
      with (PI / 2) in Hy by (by field).
    by rewrite <- cos_sin, sin_PI2 in Hy. }
  destruct (cos_eq_1_inv _ Hx) as [j Hj], (cos_eq_1_inv _ Hy) as [k Hk].
  by apply (turns_incommensurable P j k).
Qed.

(** The two crank pins are never both back where they were. *)
Lemma crank_pins_injective (t1 t2 : R) :
  crank_pin_x g t1 = crank_pin_x g t2 ->
  crank_pin_y g t1 = crank_pin_y g t2 -> t1 = t2.
Proof.
  intros Hx Hy. pose proof omega_y_nonzero as Hwy.
  real_ops. injection Hx as Hxc Hxs. injection Hy as Hyc Hys.
  apply Rmult_eq_reg_l in Hxc, Hxs, Hyc, Hys; try done.
  destruct (same_angle _ _ Hxc Hxs) as [j Hj].
  destruct (same_angle _ _ Hyc Hys) as [k Hk].
  apply Rminus_diag_uniq.
  apply (turns_incommensurable (t1 - t2) j k);
    [rewrite <- Hj|rewrite <- Hk]; unfold omega_y; real_ops; ring.
Qed.
End RealMechanism.

(** The script's constants over the reals. *)
Section ScriptReals.
Local Open Scope R_scope.

Lemma script_constants :
  Rx script = 3 /\ Ry script = 2 /\ omega_x script = 1 /\ phi_x script = 0 /\
  phi script = (1 + sqrt 5) / 2 /\ phi_y script = 0.
Proof. done. Qed.

Lemma script_ratio : omega_y script / omega_x script = (1 + sqrt 5) / 2.
Proof. unfold omega_y. simpl. field. Qed.

Lemma script_ratio_irrational : irrational (omega_y script / omega_x script).
Proof. rewrite script_ratio. apply golden_ratio_irrational. Qed.

Lemma script_no_period (P : R) :
  period_of (sliders_intersection script) P -> P = 0.
Proof.
  apply sliders_no_period; simpl; try lra. apply script_ratio_irrational.
Qed.
End ScriptReals.

(** * Small runs of the list primitives and of the trail *)

Example del_front_removes_prefix : del_front 2 [1; 2; 3] = [3].
Proof. reflexivity. Qed.

Example del_front_negative_stop : del_front (-1) [1; 2; 3] = [3].
Proof. reflexivity. Qed.

Example del_front_past_the_end : del_front 7 [1; 2; 3] = [].
Proof. reflexivity. Qed.

Example py_index_examples :
  py_index [10; 20; 30] 0 = Some 10 /\ py_index [10; 20; 30] (-1) = Some 30 /\
  py_index [10; 20; 30] 3 = None /\ py_index [10; 20; 30] (-4) = None.
Proof. repeat split. Qed.

Example appends_under_capacity :
  appends 5 ([], []) [(1, 10); (2, 20); (3, 30)] = ([1; 2; 3], [10; 20; 30]).
Proof. reflexivity. Qed.

Example appends_over_capacity :
  appends 2 ([], []) [(1, 10); (2, 20); (3, 30)] = ([2; 3], [20; 30]).
Proof. reflexivity. Qed.

(** A negative [trail_max] empties the trail on every append: the slice
    [[:len - trail_max]] then covers the whole list. *)
Example appends_negative_capacity :
  appends (-1) ([], []) [(1, 10); (2, 20)] = ([], []).
Proof. reflexivity. Qed.

(** * The stored constants and a rational frequency ratio *)

Section StoredConstants.
Local Open Scope R_scope.

Lemma stored_phi :
  binary64_value phi_binary64 = 910872158600853 / 562949953421312.
Proof. binary64_eval. lra. Qed.

Lemma stored_constants :
  Rx script_binary64 = 3 /\ Ry script_binary64 = 2 /\
  omega_x script_binary64 = 1 /\ phi_x script_binary64 = 0 /\
  phi script_binary64 = 910872158600853 / 562949953421312 /\
  phi_y script_binary64 = 0.
Proof.
  cbn [script_binary64 Rx Ry omega_x phi_x phi phi_y].
  split; [binary64_eval; lra|]. split; [binary64_eval; lra|].
  split; [binary64_eval; lra|]. split; [binary64_eval; lra|].
  split; [exact stored_phi|binary64_eval; lra].
Qed.

(** The product of line 24 is exact in binary64: the stored [omega_y] is
    the stored [phi]. *)
Lemma stored_omega_y :
  omega_y script_binary64 = binary64_value omega_y_binary64.
Proof.
  assert (Hf : omega_y_binary64 = phi_binary64) by (vm_compute; reflexivity).
  rewrite Hf. unfold omega_y. real_ops.
  destruct stored_constants as (_ & _ & Hwx & _ & Hphi & _).
  rewrite Hwx, Hphi, stored_phi. lra.
Qed.

Lemma stored_ratio :
  omega_y script_binary64 / omega_x script_binary64 =
    IZR 910872158600853 / IZR 562949953421312.
Proof.
  unfold omega_y. real_ops.
  destruct stored_constants as (_ & _ & Hwx & _ & Hphi & _).
  rewrite Hwx, Hphi. lra.
Qed.

Lemma stored_ratio_rational :
  ~ irrational (omega_y script_binary64 / omega_x script_binary64).
Proof.
  intros Hirr.
  apply (Hirr 910872158600853%Z 562949953421312%Z); [done|].
  exact stored_ratio.
Qed.

Lemma stored_ratio_not_golden :
  omega_y script_binary64 / omega_x script_binary64 <> (1 + sqrt 5) / 2.
Proof.
  intros Heq. apply stored_ratio_rational. rewrite Heq.
  apply golden_ratio_irrational.
Qed.

(** The stored [phi] is within [2^-52] of the golden ratio. *)
Lemma stored_phi_close :
  Rabs (binary64_value phi_binary64 - (1 + sqrt 5) / 2) < / 4503599627370496.
Proof.
  rewrite stored_phi.
  assert (Hs : 0 <= sqrt 5) by apply sqrt_pos.
  pose proof sqrt5_sq as Hsq.
  assert (Hlo : 10070354910243150 / 4503599627370496 < sqrt 5).
  { apply Rnot_le_lt. intros Hle.
    assert (sqrt 5 * sqrt 5 <=
            (10070354910243150 / 4503599627370496) *
            (10070354910243150 / 4503599627370496))
      by (apply Rmult_le_compat; lra).
    lra. }
  assert (Hhi : sqrt 5 < 10070354910243154 / 4503599627370496).
  { apply Rnot_le_lt. intros Hle.
    assert ((10070354910243154 / 4503599627370496) *
            (10070354910243154 / 4503599627370496) <= sqrt 5 * sqrt 5)
      by (apply Rmult_le_compat; lra).
    lra. }
  apply Rabs_def1; lra.
Qed.
End StoredConstants.

Section WholeTurns.
Local Open Scope R_scope.

Lemma sin_even_PI (j : Z) : sin (2 * IZR j * PI) = 0.
Proof.
  apply sin_eq_0_1. exists (2 * j)%Z. rewrite mult_IZR. ring.
Qed.

Lemma cos_whole_turns (x : R) (j : Z) : cos (x + 2 * IZR j * PI) = cos x.
Proof. rewrite cos_plus, cos_even_PI, sin_even_PI. ring. Qed.

Lemma sin_whole_turns (x : R) (j : Z) : sin (x + 2 * IZR j * PI) = sin x.
Proof. rewrite sin_plus, cos_even_PI, sin_even_PI. ring. Qed.

Lemma PI_above_3 : 3 < PI.
Proof. pose proof PI2_3_2. lra. Qed.
End WholeTurns.

(** A ratio [omega_y / omega_x = p / q] in lowest terms: the two cranks are
    back together exactly after every [q] turns of the first. *)
Section RationalRatio.
Local Open Scope R_scope.
Variable g : Globals R.
Variables p q : Z.
Hypothesis HRx : Rx g <> 0.
Hypothesis HRy : Ry g <> 0.
Hypothesis Hwx : omega_x g <> 0.
Hypothesis Hp : p <> 0%Z.
Hypothesis Hq : q <> 0%Z.
Hypothesis Hgcd : Z.gcd q p = 1%Z.
Hypothesis Hratio : omega_y g * IZR q = IZR p * omega_x g.

Lemma rational_omega_y_nonzero : omega_y g <> 0.
Proof.
  intros Hwy. rewrite Hwy, Rmult_0_l in Hratio. symmetry in Hratio.
  apply Rmult_integral in Hratio as [H0|H0]; [|done].
  by apply (not_0_IZR p).
Qed.

(** Whole turns of both cranks over the same time span: the first makes a
    multiple of [q] turns. *)
Lemma rational_common_turns (d : R) (k m : Z) :
  omega_x g * d = 2 * IZR k * PI -> omega_y g * d = 2 * IZR m * PI ->
  (q | k)%Z.
Proof.
  intros Hk Hm. pose proof PI_RGT_0 as Hpi.
  assert (H1 : omega_y g * d * IZR q = IZR p * (omega_x g * d)).
  { replace (omega_y g * d * IZR q) with (omega_y g * IZR q * d) by ring.
    rewrite Hratio. ring. }
  rewrite Hm, Hk in H1.
  assert (Heq : IZR (m * q) = IZR (p * k)).
  { rewrite !mult_IZR. apply (Rmult_eq_reg_r (2 * PI)); [|lra].
    replace (IZR m * IZR q * (2 * PI)) with (2 * IZR m * PI * IZR q) by ring.
    rewrite H1. ring. }
  apply eq_IZR in Heq.
  apply (Z.gauss q p k); [|done]. exists m. lia.
Qed.

Lemma rational_second_turns (d : R) (j : Z) :
  omega_x g * d = 2 * IZR (q * j) * PI ->
  omega_y g * d = 2 * IZR (p * j) * PI.
Proof.
  intros Hj. assert (HqR : IZR q <> 0) by (by apply not_0_IZR).
  apply (Rmult_eq_reg_r (IZR q)); [|done].
  replace (omega_y g * d * IZR q) with (omega_y g * IZR q * d) by ring.
  rewrite Hratio.
  replace (IZR p * omega_x g * d) with (IZR p * (omega_x g * d)) by ring.
  rewrite Hj, !mult_IZR. ring.
Qed.

(** The periods of the traced point are the time spans over which the
    first crank makes a multiple of [q] turns. *)
Lemma rational_periods (P : R) :
  period_of (sliders_intersection g) P <->
  exists j : Z, omega_x g * P = 2 * IZR (q * j) * PI.
Proof.
  pose proof rational_omega_y_nonzero as Hwy. split.
  - intros HP.
    assert (Hx : cos (omega_x g * P) = 1).
    { pose proof (f_equal fst (HP (- phi_x g / omega_x g))) as Hx.
      real_ops. apply Rmult_eq_reg_l in Hx; [|done].
      replace (omega_x g * (- phi_x g / omega_x g + P) + phi_x g)
        with (omega_x g * P) in Hx by (by field).
      replace (omega_x g * (- phi_x g / omega_x g) + phi_x g)
        with 0 in Hx by (by field).
      by rewrite cos_0 in Hx. }
    assert (Hy : cos (omega_y g * P) = 1).
    { pose proof (f_equal snd (HP ((PI / 2 - phi_y g) / omega_y g))) as Hy.
      real_ops. apply Rmult_eq_reg_l in Hy; [|done].
      replace (omega_y g * ((PI / 2 - phi_y g) / omega_y g + P) + phi_y g)
        with (PI / 2 + omega_y g * P) in Hy by (by field).
      replace (omega_y g * ((PI / 2 - phi_y g) / omega_y g) + phi_y g)
        with (PI / 2) in Hy by (by field).
      by rewrite <- cos_sin, sin_PI2 in Hy. }
    destruct (cos_eq_1_inv _ Hx) as [k Hk], (cos_eq_1_inv _ Hy) as [m Hm].
    destruct (rational_common_turns P k m Hk Hm) as [j ->].
    exists j. rewrite Hk. by rewrite (Z.mul_comm j q).
  - intros [j Hj] t.
    pose proof (rational_second_turns P j Hj) as Hj'.
    real_ops. f_equal; f_equal.
    + replace (omega_x g * (t + P) + phi_x g)
        with (omega_x g * t + phi_x g + omega_x g * P) by ring.
      rewrite Hj. apply cos_whole_turns.
    + replace (omega_y g * (t + P) + phi_y g)
        with (omega_y g * t + phi_y g + omega_y g * P) by ring.
      rewrite Hj'. apply sin_whole_turns.
Qed.

(** Two times at which both crank pins are at the same places. *)
Lemma rational_crank_turns (t1 t2 : R) :
  crank_pin_x g t1 = crank_pin_x g t2 ->
  crank_pin_y g t1 = crank_pin_y g t2 ->
  exists j : Z, omega_x g * (t1 - t2) = 2 * IZR (q * j) * PI.
Proof.
  intros Hx Hy.
  real_ops. injection Hx as Hxc Hxs. injection Hy as Hyc Hys.
  apply Rmult_eq_reg_l in Hxc, Hxs, Hyc, Hys; try done.
  destruct (same_angle _ _ Hxc Hxs) as [k Hk].
  destruct (same_angle _ _ Hyc Hys) as [m Hm].
  assert (Hk' : omega_x g * (t1 - t2) = 2 * IZR k * PI)
    by (rewrite <- Hk; ring).
  assert (Hm' : omega_y g * (t1 - t2) = 2 * IZR m * PI)
    by (rewrite <- Hm; unfold omega_y; real_ops; ring).
  destruct (rational_common_turns (t1 - t2) k m Hk' Hm') as [j ->].
  exists j. rewrite Hk'. by rewrite (Z.mul_comm j q).
Qed.

(** Over a time span too short for [q] turns of the first crank the two
    crank pins are not both back. *)
Lemma rational_crank_pins_injective (D t1 t2 : R) :
  D * Rabs (omega_x g) < 2 * IZR (Z.abs q) * PI ->
  Rabs (t1 - t2) <= D ->
  crank_pin_x g t1 = crank_pin_x g t2 ->
  crank_pin_y g t1 = crank_pin_y g t2 -> t1 = t2.
Proof.
  intros HD Hd Hx Hy. pose proof PI_RGT_0 as Hpi.
  destruct (rational_crank_turns t1 t2 Hx Hy) as [j Hj].
  destruct (Z.eq_dec j 0%Z) as [->|Hj0].
  - rewrite Z.mul_0_r, Rmult_0_r, Rmult_0_l in Hj.
    apply Rmult_integral in Hj as [H0|H0]; [done|]. by apply Rminus_diag_uniq.
  - exfalso. apply (f_equal Rabs) in Hj.
    assert (Habs : Rabs (2 * IZR (q * j) * PI) = 2 * IZR (Z.abs (q * j)) * PI).
    { rewrite abs_IZR, !Rabs_mult.
      rewrite (Rabs_pos_eq 2), (Rabs_pos_eq PI) by lra. done. }
    rewrite Habs, Rabs_mult in Hj.
    assert (Hqj : IZR (Z.abs q) <= IZR (Z.abs (q * j))) by (apply IZR_le; nia).
    assert (Hw : 0 <= Rabs (omega_x g)) by apply Rabs_pos.
    assert (Hprod : Rabs (omega_x g) * Rabs (t1 - t2) <= Rabs (omega_x g) * D)
      by (by apply Rmult_le_compat_l).
    nra.
Qed.
End RationalRatio.

(** The stored constants have the ratio [910872158600853 / 2^49]. *)
Section StoredPeriods.
Local Open Scope R_scope.

Lemma stored_hypotheses :
  Rx script_binary64 <> 0 /\ Ry script_binary64 <> 0 /\
  omega_x script_binary64 <> 0 /\
  Z.gcd 562949953421312 910872158600853 = 1%Z /\
  omega_y script_binary64 * IZR 562949953421312 =
    IZR 910872158600853 * omega_x script_binary64.
Proof.
  destruct stored_constants as (HRx & HRy & Hwx & _ & Hphi & _).
  rewrite HRx, HRy. unfold omega_y. real_ops. rewrite Hwx, Hphi.
  split; [lra|]. split; [lra|]. split; [lra|]. split; [reflexivity|lra].
Qed.

Lemma stored_periods (P : R) :
  period_of (sliders_intersection script_binary64) P <->
  exists j : Z, P = IZR 1125899906842624 * IZR j * PI.
Proof.
  destruct stored_hypotheses as (HRx & HRy & Hwx & Hgcd & Hratio).
  rewrite (rational_periods script_binary64 910872158600853 562949953421312
             HRx HRy Hwx ltac:(done) ltac:(done) Hgcd Hratio P).
  destruct stored_constants as (_ & _ & -> & _).
  split; intros [j Hj]; exists j.
  - rewrite mult_IZR in Hj. lra.
  - rewrite mult_IZR. lra.
Qed.
End StoredPeriods.

(** * The properties of the specification *)

(** ** Trajectory evaluator *)

(** C1.  For every time [t] the three helpers return the closed forms of the
    specification, whatever the arithmetic: both crank pins are
    [(R cos(w t + p), R sin(w t + p))] for their own radius, frequency and
    phase, the traced point is [(Rx cos(wx t + px), Ry sin(wy t + py))]; its
    abscissa is the one of the first crank pin and its ordinate the one of
    the second. *)
Theorem evaluator_closed_forms {F : Type} `{Arith F} (g : Globals F) (t : F) :
  crank_pin_x g t =
    ((Rx g * np_cos (omega_x g * t + phi_x g))%py,
     (Rx g * np_sin (omega_x g * t + phi_x g))%py) /\
  crank_pin_y g t =
    ((Ry g * np_cos (omega_y g * t + phi_y g))%py,
     (Ry g * np_sin (omega_y g * t + phi_y g))%py) /\
  sliders_intersection g t =
    ((Rx g * np_cos (omega_x g * t + phi_x g))%py,
     (Ry g * np_sin (omega_y g * t + phi_y g))%py) /\
  (sliders_intersection g t).1 = (crank_pin_x g t).1 /\
  (sliders_intersection g t).2 = (crank_pin_y g t).2.
Proof. repeat split. Qed.

(** ** Trail buffer *)

(** C2.  With a capacity [trail_max] that is not negative, after any run of
    append calls from the empty trail the buffer holds at most [trail_max]
    points, and they are the last [min(calls, trail_max)] appended points,
    oldest first; and every successful run of [update] over frames [fs] is
    such a run of appends, one traced point per frame. *)
Theorem trail_buffer_invariant {F : Type} `{Arith F} (g : Globals F) :
  0 <= trail_max g ->
  (forall ps : list (F * F),
     len (points (appends (trail_max g) ([], []) ps)) <= trail_max g /\
     points (appends (trail_max g) ([], []) ps) =
       last_points (Z.to_nat (Z.min (len ps) (trail_max g))) ps) /\
  (forall fs st, play g fs initial = Some st ->
     exists ps, Forall2 (traced g) fs ps /\
       trail st = appends (trail_max g) ([], []) ps).
Proof.
  intros Hm. split.
  - intros ps. rewrite points_appends by done. split.
    + unfold len. rewrite length_last_points. lia.
    + rewrite <- (last_points_min (Z.to_nat (trail_max g))).
      unfold len. f_equal. lia.
  - intros fs st Hplay. by apply play_inv in Hplay.
Qed.

Lemma trail_buffer_invariant_script :
  0 <= trail_max (script : Globals R) /\
  (forall ps : list (R * R),
     len (points (appends (trail_max script) ([], []) ps)) <= trail_max script /\
     points (appends (trail_max script) ([], []) ps) =
       last_points (Z.to_nat (Z.min (len ps) (trail_max script))) ps).
Proof.
  assert (Hm : 0 <= trail_max (script : Globals R)) by (cbn; discriminate).
  split; [exact Hm|].
  exact (proj1 (trail_buffer_invariant script Hm)).
Defined.

(** C6.  With [trail_max = 0] the trail that starts empty is empty again
    after every append call: the test of line 119 is true each time and the
    point just appended is deleted at once.  So it is after every run of
    [update] calls when the script's [trail_max] is [0]. *)
Theorem zero_capacity_trail_stays_empty {F : Type} `{Arith F} :
  (forall ps : list (F * F), appends 0 ([], []) ps = ([], [])) /\
  (forall p : F * F, overflow 0 ([] ++ [p.1]) = true) /\
  (forall (g : Globals F) (fs : list Z) (st : State F),
     trail_max g = 0 -> play g fs initial = Some st ->
     trail_x st = [] /\ trail_y st = []).
Proof.
  assert (Hps : forall ps : list (F * F), appends 0 ([], []) ps = ([], [])).
  { induction ps as [|p ps IH] using rev_ind; [done|].
    rewrite appends_snoc, IH. done. }
  split; [exact Hps|]. split; [done|].
  intros g fs st Hm Hplay.
  destruct (play_inv g fs initial st Hplay) as (ps & _ & Htr).
  change (trail initial) with (([], []) : Trail F) in Htr.
  rewrite Hm, Hps in Htr. by injection Htr.
Qed.

(** C9.  After any run of [update] calls from the initial state the two
    trail lists have the same length, so entry [i] of one exists exactly
    when entry [i] of the other does and the two make the point [i] of the
    trail. *)
Theorem trail_lists_same_length {F : Type} `{Arith F}
    (g : Globals F) (fs : list Z) (st : State F) :
  play g fs initial = Some st ->
  length (trail_x st) = length (trail_y st) /\
  (forall (i : nat) (x : F), trail_x st !! i = Some x ->
     exists y, trail_y st !! i = Some y /\
       points (trail st) !! i = Some (x, y)) /\
  (forall (i : nat) (y : F), trail_y st !! i = Some y ->
     exists x, trail_x st !! i = Some x /\
       points (trail st) !! i = Some (x, y)).
Proof.
  intros Hplay.
  assert (Hlen : length (trail_x st) = length (trail_y st))
    by (by apply (play_lengths g fs initial st)).
  split; [done|]. unfold points, trail. simpl. split.
  - intros i x Hx.
    destruct (lookup_lt_is_Some_2 (trail_y st) i) as [y Hy];
      [rewrite <- Hlen; by eapply lookup_lt_Some|].
    exists y. split; [done|]. rewrite lookup_zip_with, Hx. simpl. by rewrite Hy.
  - intros i y Hy.
    destruct (lookup_lt_is_Some_2 (trail_x st) i) as [x Hx];
      [rewrite Hlen; by eapply lookup_lt_Some|].
    exists x. split; [done|]. rewrite lookup_zip_with, Hx. simpl. by rewrite Hy.
Qed.

Lemma trail_lists_same_length_script :
  exists st : State R,
    play script (frames script) initial = Some st /\
    length (trail_x st) = length (trail_y st).
Proof.
  destruct (linspace_is_Some (of_Z 0) (of_Z (T script)) (N (script : Globals R)))
    as [tv Htv]; [cbn; discriminate|].
  destruct (frame_loop_trail script tv Htv) as (st & Hplay & _);
    [cbn; discriminate|].
  rewrite frame_loop_play in Hplay.
  exists st. split; [exact Hplay|].
  exact (proj1 (trail_lists_same_length script (frames script) st Hplay)).
Defined.

(** ** Frame loop scenarios *)

(** C7.  With the script's constants ([T = 60], [fps = 20], so [N = 1200],
    and [trail_max = 8000]) one pass of the frame loop succeeds and leaves
    exactly 1200 points in the trail, the traced points of the grid in
    order; and in no frame is the test of line 119 true: in frame [k] the
    trail just extended has no more than [trail_max] entries. *)
Theorem short_run_no_eviction {F : Type} `{Arith F} :
  T (script : Globals F) = 60 /\ fps (script : Globals F) = 20 /\
  N (script : Globals F) = 1200 /\ trail_max (script : Globals F) = 8000 /\
  exists (tv : list F) (st : State F),
    t_values script = Some tv /\
    frame_loop script initial = Some st /\
    len (points (trail st)) = 1200 /\
    points (trail st) = sliders_intersection script <$> tv /\
    forall k : nat, Z.of_nat k < 1200 ->
      exists (st_k : State F) (t : F),
        play script (seqZ 0 (Z.of_nat k)) (init initial) = Some st_k /\
        py_index tv (Z.of_nat k) = Some t /\
        overflow (trail_max script)
          (trail_x st_k ++ [(sliders_intersection script t).1]) = false.
Proof.
  repeat (split; [done|]).
  destruct (linspace_is_Some (of_Z 0) (of_Z (T script)) (N (script : Globals F)))
    as [tv Htv]; [done|].
  pose proof (t_values_len script tv Htv) as Hlen.
  change (N script) with 1200 in Hlen. unfold len in Hlen.
  destruct (frame_loop_trail script tv Htv) as (st & Hloop & Hpts); [done|].
  change (trail_max script) with 8000 in Hpts.
  rewrite last_points_all in Hpts by (rewrite length_fmap; lia).
  exists tv, st. split; [done|]. split; [done|]. split.
  { rewrite Hpts. unfold len. rewrite length_fmap. done. }
  split; [done|]. intros k Hk.
  destruct (play_prefix script tv k Htv) as (st_k & Hplay & Hx & _);
    [done|lia|].
  destruct (py_index_is_Some tv (Z.of_nat k)) as [t Ht]; [unfold len; lia|].
  exists st_k, t. split; [done|]. split; [done|].
  unfold overflow, len. apply Z.ltb_ge.
  rewrite length_app, Hx, length_last_points, !length_fmap, length_take.
  change (trail_max script) with 8000. simpl. lia.
Qed.

(** C3.  With [N = 10000] frames and [trail_max = 8000], one pass of the
    frame loop succeeds and leaves exactly 8000 points in the trail: the
    points traced at the grid values 2000 to 9999, in order. *)
Theorem long_run_keeps_last_8000 {F : Type} `{Arith F} (g : Globals F) :
  N g = 10000 -> trail_max g = 8000 ->
  exists (tv : list F) (st : State F),
    t_values g = Some tv /\
    frame_loop g initial = Some st /\
    len (points (trail st)) = 8000 /\
    points (trail st) = sliders_intersection g <$> drop (Z.to_nat 2000) tv /\
    forall i : Z, 0 <= i < 8000 ->
      exists t : F,
        py_index tv (2000 + i) = Some t /\
        py_index (points (trail st)) i = Some (sliders_intersection g t).
Proof.
  intros HN Hm.
  destruct (linspace_is_Some (of_Z 0) (of_Z (T g)) (N g)) as [tv Htv]; [lia|].
  pose proof (t_values_len g tv Htv) as Hlen. unfold len in Hlen.
  destruct (frame_loop_trail g tv Htv) as (st & Hloop & Hpts); [lia|].
  assert (Hdrop : points (trail st) =
                  sliders_intersection g <$> drop (Z.to_nat 2000) tv).
  { rewrite Hpts. unfold last_points. rewrite fmap_drop, length_fmap.
    f_equal. lia. }
  assert (Hl : len (points (trail st)) = 8000).
  { rewrite Hdrop. unfold len. rewrite length_fmap, length_drop. lia. }
  exists tv, st. repeat (split; [done|]). intros i Hi.
  destruct (py_index_is_Some tv (2000 + i)) as [t Ht]; [unfold len; lia|].
  exists t. split; [done|].
  rewrite py_index_in_range in Ht by (unfold len; lia).
  rewrite py_index_in_range by lia.
  rewrite Hdrop, list_lookup_fmap, lookup_drop.
  replace (Z.to_nat 2000 + Z.to_nat i)%nat with (Z.to_nat (2000 + i)) by lia.
  by rewrite Ht.
Qed.

Lemma long_run_keeps_last_8000_witness :
  N (with_limits (script : Globals R) 500 20 8000) = 10000 /\
  trail_max (with_limits (script : Globals R) 500 20 8000) = 8000 /\
  exists (tv : list R) (st : State R),
    t_values (with_limits script 500 20 8000) = Some tv /\
    frame_loop (with_limits script 500 20 8000) initial = Some st /\
    len (points (trail st)) = 8000 /\
    points (trail st) =
      sliders_intersection (with_limits script 500 20 8000)
        <$> drop (Z.to_nat 2000) tv.
Proof.
  split; [reflexivity|]. split; [reflexivity|].
  destruct (long_run_keeps_last_8000 (with_limits (script : Globals R) 500 20 8000)
              eq_refl eq_refl) as (tv & st & Htv & Hloop & Hlen & Hpts & _).
  exists tv, st.
  exact (conj Htv (conj Hloop (conj Hlen Hpts))).
Defined.

(** ** The time grid *)

(** C10.  The grid has exactly [N = int(T * fps) = 1200] values, the first
    is [0] and the last is [T = 60]; the animation hands [update] the frame
    indices [0 <= frame < N], and for each of them the lookup
    [t_values[frame]] is in bounds and [update] raises nothing. *)
Theorem time_grid_in_bounds :
  N (script : Globals R) = 1200 /\
  exists tv : list R,
    t_values script = Some tv /\
    len tv = 1200 /\
    py_index tv 0 = Some 0%R /\
    py_index tv (N (script : Globals R) - 1) = Some 60%R /\
    (forall frame : Z,
       elem_of frame (frames (script : Globals R)) <-> 0 <= frame < 1200) /\
    (forall (frame : Z) (st : State R), 0 <= frame < 1200 ->
       is_Some (py_index tv frame) /\ is_Some (update script frame st)).
Proof.
  split; [done|].
  destruct (linspace_is_Some (of_Z 0) (of_Z (T script)) (N (script : Globals R)))
    as [tv Htv]; [cbn; discriminate|].
  pose proof (t_values_len script tv Htv) as Hlen.
  change (N script) with 1200 in Hlen.
  assert (HN : 1 < N (script : Globals R)) by reflexivity.
  exists tv. split; [exact Htv|]. split; [exact Hlen|]. split; [|split; [|split]].
  - rewrite py_index_in_range by lia. change (Z.to_nat 0) with 0%nat.
    rewrite (linspace_first _ _ _ _ HN Htv). f_equal.
    real_ops. unfold Rdiv. ring.
  - rewrite py_index_in_range by (change (N script) with 1200; lia).
    apply (linspace_last _ _ _ _ HN Htv).
  - intros frame. unfold frames. rewrite elem_of_seqZ.
    change (N script) with 1200. lia.
  - intros frame st Hf. split.
    + apply py_index_is_Some. lia.
    + by apply update_in_range.
Qed.

(** ** The curve over the real numbers *)

Section RealClaims.
Local Open Scope R_scope.

(** C8.  With the script's constants ([Rx = 3], [Ry = 2], [omega_x = 1],
    [phi_x = phi_y = 0], [phi = (1 + sqrt 5) / 2]) the traced point at
    [t = 0] is [(3, 0)]; at [t = PI / 2 / omega_x] its abscissa is [0] and
    its ordinate is [2 sin(phi PI / 2)]. *)
Theorem trace_point_samples :
  (Rx script = 3 /\ Ry script = 2 /\ omega_x script = 1 /\ phi_x script = 0 /\
   phi script = (1 + sqrt 5) / 2 /\ phi_y script = 0) /\
  sliders_intersection script 0 = (3, 0) /\
  (sliders_intersection script (PI / 2 / omega_x script)).1 = 0 /\
  (sliders_intersection script (PI / 2 / omega_x script)).2 =
    2 * sin ((1 + sqrt 5) / 2 * (PI / 2)).
Proof.
  split; [exact script_constants|].
  unfold sliders_intersection, omega_y. cbn [script Rx Ry omega_x phi_x phi phi_y].
  real_ops. split; [|split].
  - f_equal.
    + replace (1 * 0 + 0) with 0 by ring. rewrite cos_0. ring.
    + replace ((1 + sqrt 5) / 2 * 1 * 0 + 0) with 0 by (unfold Rdiv; ring).
      rewrite sin_0. ring.
  - replace (1 * (PI / 2 / 1) + 0) with (PI / 2) by field.
    rewrite cos_PI2. ring.
  - f_equal. f_equal. field.
Qed.




End RealClaims.

(** * Further properties of the code *)

(** ** Indexing and slicing *)

Section MoreListFacts.
Context {A : Type}.
Implicit Types (l : list A) (i k : Z).

Lemma py_index_is_Some_iff l i :
  is_Some (py_index l i) <-> - len l <= i < len l.
Proof.
  unfold py_index.
  destruct (Z.leb_spec 0 i), (Z.ltb_spec i (len l)),
    (Z.leb_spec (- len l) i), (Z.ltb_spec i 0); simpl;
    first [ rewrite lookup_lt_is_Some; unfold len in *; lia
          | split; [intros [? ?]; done|unfold len in *; lia] ].
Qed.

Lemma py_index_wrap l i :
  - len l <= i < 0 -> py_index l i = py_index l (i + len l).
Proof.
  intros Hi. rewrite (py_index_in_range l (i + len l)) by lia.
  unfold py_index.
  destruct (Z.leb_spec 0 i), (Z.ltb_spec i (len l)),
    (Z.leb_spec (- len l) i), (Z.ltb_spec i 0); simpl; done || lia.
Qed.

Lemma last_last_points (n : nat) l x :
  (1 <= n)%nat -> last (last_points n (l ++ [x])) = Some x.
Proof.
  intros Hn. unfold last_points. rewrite length_app. simpl.
  rewrite drop_app_le by lia. apply last_snoc.
Qed.

(** With a capacity that is not positive both deletions cover the whole
    list, whatever the two lists were. *)
Lemma append_trail_nonpositive (m : Z) (p : A * A) (b : Trail A) :
  m <= 0 -> append_trail m p b = ([], []).
Proof.
  intros Hm. unfold append_trail, overflow.
  assert (H1 : 1 <= len (b.1 ++ [p.1])) by (unfold len; rewrite length_app; simpl; lia).
  assert (H2 : 1 <= len (b.2 ++ [p.2])) by (unfold len; rewrite length_app; simpl; lia).
  rewrite (proj2 (Z.ltb_lt m (len (b.1 ++ [p.1])))) by lia.
  rewrite !del_front_drop by lia.
  unfold len in *. f_equal; apply drop_ge; lia.
Qed.

Lemma appends_app (m : Z) (b : Trail A) (ps qs : list (A * A)) :
  appends m b (ps ++ qs) = appends m (appends m b ps) qs.
Proof. unfold appends. apply foldl_app. Qed.
End MoreListFacts.

(** ** When [update] and a run of frames succeed *)

Section MoreMechanismFacts.
Context {F : Type} `{Arith F}.
Implicit Types (g : Globals F) (st : State F) (tv : list F) (fs : list Z).

Lemma t_values_Some g : 0 <= N g -> exists tv, t_values g = Some tv /\ len tv = N g.
Proof.
  intros HN.
  destruct (linspace_is_Some (of_Z 0) (of_Z (T g)) (N g) HN) as [tv Htv].
  exists tv. split; [done|]. by apply t_values_len.
Qed.

Lemma update_is_Some_iff g frame st tv :
  t_values g = Some tv ->
  is_Some (update g frame st) <-> is_Some (py_index tv frame).
Proof.
  intros Htv. split.
  - intros [st' Hup]. destruct (update_inv _ _ _ _ Hup) as (tv' & t & Htv' & Ht & _).
    simplify_eq. by exists t.
  - intros [t Ht]. destruct (update_Some g frame st tv t Htv Ht) as (st' & Hup & _).
    by exists st'.
Qed.

Lemma update_same_trail g frame st1 st2 :
  trail st1 = trail st2 -> update g frame st1 = update g frame st2.
Proof.
  intros Htr. injection Htr as Hx Hy. unfold update. by rewrite Hx, Hy.
Qed.

Lemma frame_loop_from g tv st :
  t_values g = Some tv ->
  exists st', frame_loop g st = Some st' /\
    trail st' = appends (trail_max g) (trail st) (sliders_intersection g <$> tv).
Proof.
  intros Htv.
  destruct (play_trail g tv _ _ (init st) Htv (frames_grid g tv Htv))
    as (st' & Hplay & Htr).
  by exists st'.
Qed.

Lemma passes_trail g tv (k : nat) st :
  t_values g = Some tv ->
  exists st', passes g k st = Some st' /\
    trail st' = appends (trail_max g) (trail st)
                  (concat (replicate k (sliders_intersection g <$> tv))).
Proof.
  intros Htv. revert st. induction k as [|k IH]; intros st; [by exists st|].
  destruct (frame_loop_from g tv st Htv) as (st1 & Hloop & Htr1).
  destruct (IH st1) as (st' & Hpasses & Htr').
  exists st'. simpl. rewrite Hloop. simpl. split; [done|].
  by rewrite Htr', Htr1, appends_app.
Qed.

Lemma length_concat_replicate {B} (k : nat) (l : list B) :
  length (concat (replicate k l)) = (k * length l)%nat.
Proof.
  induction k as [|k IH]; [done|].
  simpl. rewrite length_app, IH. done.
Qed.
End MoreMechanismFacts.

(** X1.  [update] succeeds exactly on the frame indices [-N <= frame < N]
    (an index outside raises [IndexError]), and a negative index in that
    range is the frame [frame + N]: Python counts it from the end of the
    grid. *)
Theorem update_succeeds_on_grid_indices {F : Type} `{Arith F}
    (g : Globals F) (frame : Z) (st : State F) :
  0 <= N g ->
  (is_Some (update g frame st) <-> - N g <= frame < N g) /\
  (- N g <= frame < 0 -> update g frame st = update g (frame + N g) st).
Proof.
  intros HN. destruct (t_values_Some g HN) as (tv & Htv & Hlen). split.
  - rewrite (update_is_Some_iff g frame st tv Htv), py_index_is_Some_iff.
    by rewrite Hlen.
  - intros Hf. unfold update. rewrite Htv. simpl.
    rewrite py_index_wrap by (rewrite Hlen; done). by rewrite Hlen.
Qed.

Lemma update_succeeds_on_grid_indices_script :
  0 <= N (script : Globals R) /\
  update (script : Globals R) (-1) initial = update script (-1 + N script) initial /\
  ~ is_Some (update (script : Globals R) 1200 initial).
Proof.
  assert (HN : 0 <= N (script : Globals R)) by (cbn; discriminate).
  pose proof (update_succeeds_on_grid_indices script (-1) initial HN) as [_ Hwrap].
  pose proof (update_succeeds_on_grid_indices script 1200 initial HN) as [Hdom _].
  split; [exact HN|]. split.
  - apply Hwrap. change (N script) with 1200. lia.
  - intros Hs. apply Hdom in Hs. change (N script) with 1200 in Hs. lia.
Defined.

Lemma play_in_range {F : Type} `{Arith F}
    (g : Globals F) (fs : list Z) (st : State F) :
  Forall (fun frame => 0 <= frame < N g) fs -> is_Some (play g fs st).
Proof.
  intros Hfs. revert st. induction Hfs as [|f fs Hf _ IH]; intros st; [by eexists|].
  destruct (update_in_range g f st Hf) as [st1 Hup].
  simpl. rewrite Hup. simpl. apply IH.
Qed.

(** X2.  A run of [update] over a list of frame indices succeeds exactly when
    every index is in [-N .. N-1]; one index outside makes the whole run
    fail. *)
Theorem play_succeeds_iff_frames_in_grid {F : Type} `{Arith F}
    (g : Globals F) (fs : list Z) (st : State F) :
  0 <= N g ->
  is_Some (play g fs st) <-> Forall (fun frame => - N g <= frame < N g) fs.
Proof.
  intros HN. destruct (t_values_Some g HN) as (tv & Htv & Hlen).
  revert st. induction fs as [|f fs IH]; intros st.
  - split; [by constructor|by eexists].
  - rewrite Forall_cons. simpl. split.
    + intros [st' Hplay].
      destruct (update g f st) as [st1|] eqn:Hup; [|done]. split.
      * rewrite <- Hlen, <- py_index_is_Some_iff,
          <- (update_is_Some_iff g f st tv Htv). by eexists.
      * apply (IH st1). by eexists.
    + intros [Hf Hfs].
      rewrite <- Hlen, <- py_index_is_Some_iff,
        <- (update_is_Some_iff g f st tv Htv) in Hf.
      destruct Hf as [st1 Hup]. rewrite Hup. simpl. by apply IH.
Qed.

Lemma play_succeeds_iff_frames_in_grid_script :
  0 <= N (script : Globals R) /\
  is_Some (play (script : Globals R) [0; 1199; -1; -1200] initial) /\
  ~ is_Some (play (script : Globals R) [0; 1200; 1] initial).
Proof.
  assert (HN : 0 <= N (script : Globals R)) by (cbn; discriminate).
  split; [exact HN|]. split.
  - apply (play_succeeds_iff_frames_in_grid script _ initial HN).
    change (N script) with 1200. repeat constructor; lia.
  - intros Hs.
    apply (play_succeeds_iff_frames_in_grid script _ initial HN) in Hs.
    change (N script) with 1200 in Hs.
    apply Forall_cons in Hs as [_ Hs]. apply Forall_cons in Hs as [Hs _]. lia.
Defined.

(** ** What [update] reads and what it leaves *)

(** X3.  [update] reads nothing of the state but the two trail lists: from
    two states with the same trail it gives the same result, and so does
    any run that starts with a frame.  In particular a call of [init()]
    before a frame changes nothing of what follows. *)
Theorem update_reads_only_the_trail {F : Type} `{Arith F}
    (g : Globals F) (st1 st2 : State F) :
  trail st1 = trail st2 ->
  (forall frame, update g frame st1 = update g frame st2) /\
  (forall frame fs, play g (frame :: fs) st1 = play g (frame :: fs) st2).
Proof.
  intros Htr. split.
  - intros frame. by apply update_same_trail.
  - intros frame fs. simpl. by rewrite (update_same_trail g frame st1 st2).
Qed.

Lemma update_reads_only_the_trail_init :
  let st : State R := {|
    trail_x := [3%R]; trail_y := [0%R];
    link1 := ([0%R; 3%R], [0%R; 0%R]); link2 := ([0%R; 2%R], [0%R; 0%R]);
    slider_x_marker := ([3%R], [0%R]); slider_y_marker := ([0%R], [0%R]);
    trace_point := ([3%R], [0%R]); trail_line := ([3%R], [0%R]) |} in
  trail (init st) = trail st /\
  update (script : Globals R) 1 (init st) = update script 1 st /\
  play (script : Globals R) [1; 2] (init st) = play script [1; 2] st.
Proof.
  intros st.
  pose proof (update_reads_only_the_trail script (init st) st eq_refl) as [Hu Hp].
  split; [reflexivity|]. split; [apply Hu|apply Hp].
Defined.

(** X4.  After a successful [update] from a state whose trail lists have the
    same length, with [trail_max >= 1]: the trace point artist holds one
    point [(x, y)], the trail line shows exactly the two trail lists and
    ends at [(x, y)], the two slider markers are [(x, 0)] and [(0, y)], the
    first crank link ends above or below the horizontal slider (at abscissa
    [x]) and the second beside the vertical one (at ordinate [y]). *)
Theorem trail_ends_at_trace_point {F : Type} `{Arith F}
    (g : Globals F) (frame : Z) (st st' : State F) :
  1 <= trail_max g ->
  length (trail_x st) = length (trail_y st) ->
  update g frame st = Some st' ->
  exists x y cy1 cx2 : F,
    trace_point st' = ([x], [y]) /\
    trail_line st' = (trail_x st', trail_y st') /\
    last (trail_x st') = Some x /\ last (trail_y st') = Some y /\
    slider_x_marker st' = ([x], [of_Z 0]) /\
    slider_y_marker st' = ([of_Z 0], [y]) /\
    link1 st' = ([of_Z 0; x], [of_Z 0; cy1]) /\
    link2 st' = ([of_Z 0; cx2], [of_Z 0; y]).
Proof.
  intros Hm Hlen Hup. unfold update in Hup.
  destruct (t_values g) as [tv|]; [|done]. simpl in Hup.
  destruct (py_index tv frame) as [t|]; [|done]. simpl in Hup.
  rewrite append_trail_last in Hup by (simpl; done || lia).
  injection Hup as <-. simpl.
  eexists _, _, _, _. repeat (split; [reflexivity|]).
  split; [|split; [|done]]; apply last_last_points; lia.
Qed.

Lemma trail_ends_at_trace_point_script :
  exists st' : State R,
    update (script : Globals R) 0 initial = Some st' /\
    exists x y : R,
      trace_point st' = ([x], [y]) /\
      last (trail_x st') = Some x /\ last (trail_y st') = Some y.
Proof.
  destruct (update_in_range (script : Globals R) 0 initial) as [st' Hup];
    [change (N script) with 1200; lia|].
  exists st'. split; [exact Hup|].
  destruct (trail_ends_at_trace_point script 0 initial st') as
    (x & y & _ & _ & Htp & _ & Hx & Hy & _); [cbn; discriminate|reflexivity|exact Hup|].
  exists x, y. exact (conj Htp (conj Hx Hy)).
Defined.

(** X5.  With a [trail_max] that is zero or negative the trail is empty after
    every frame: both deletions of lines 120-121 then cover the whole
    list. *)
Theorem nonpositive_capacity_empties_trail {F : Type} `{Arith F}
    (g : Globals F) (fs : list Z) (st0 st : State F) :
  trail_max g <= 0 -> fs <> [] -> play g fs st0 = Some st ->
  trail_x st = [] /\ trail_y st = [].
Proof.
  intros Hm Hfs Hplay.
  destruct (play_inv g fs st0 st Hplay) as (ps & Hps & Htr).
  destruct ps as [|p ps _] using rev_ind.
  - apply Forall2_nil_inv_r in Hps. done.
  - rewrite appends_snoc, append_trail_nonpositive in Htr by done.
    by injection Htr.
Qed.

Lemma nonpositive_capacity_empties_trail_witness :
  exists st : State R,
    play (with_limits (script : Globals R) 60 20 (-5)) [0; 1; 2] initial = Some st /\
    trail_x st = [] /\ trail_y st = [].
Proof.
  pose (g := with_limits (script : Globals R) 60 20 (-5)).
  destruct (play_in_range g [0; 1; 2] initial) as [st Hplay].
  { change (N g) with 1200. repeat constructor; lia. }
  exists st. split; [exact Hplay|].
  apply (nonpositive_capacity_empties_trail g [0; 1; 2] initial st);
    [cbn; discriminate|discriminate|exact Hplay].
Defined.

(** ** What the trail can hold *)

Lemma points_appends_suffix {A : Type} (m : Z) (ps : list (A * A)) :
  suffix (points (appends m ([], []) ps)) ps.
Proof.
  destruct (Z.le_gt_cases 0 m) as [Hm|Hm].
  - rewrite points_appends by done. apply suffix_drop.
  - destruct ps as [|p ps _] using rev_ind; [done|].
    rewrite appends_snoc, append_trail_nonpositive by lia. apply suffix_nil.
Qed.

(** X6.  Whatever [trail_max] is, after a run of [update] from the initial
    state the trail is a final segment of the points traced at the frames
    of the run, in their order: it never holds a point that was not traced
    at one of these frames, and never out of order. *)
Theorem trail_is_suffix_of_traced_points {F : Type} `{Arith F}
    (g : Globals F) (fs : list Z) (st : State F) :
  play g fs initial = Some st ->
  (exists ps, Forall2 (traced g) fs ps /\ suffix (points (trail st)) ps) /\
  (forall p, elem_of p (points (trail st)) ->
     exists frame, elem_of frame fs /\ traced g frame p).
Proof.
  intros Hplay.
  destruct (play_inv g fs initial st Hplay) as (ps & Hps & Htr).
  change (trail initial) with (([], []) : Trail F) in Htr.
  assert (Hsuf : suffix (points (trail st)) ps)
    by (rewrite Htr; apply points_appends_suffix).
  split; [by exists ps|].
  intros p Hp. destruct Hsuf as [k ->].
  assert (Hin : elem_of p (k ++ points (trail st)))
    by (apply elem_of_app; by right).
  apply list_elem_of_lookup in Hin as [i Hi].
  destruct (Forall2_lookup_r _ _ _ _ _ Hps Hi) as (frame & Hf & Htraced).
  exists frame. split; [|done]. apply list_elem_of_lookup. by exists i.
Qed.

Lemma trail_is_suffix_of_traced_points_script :
  exists st : State R,
    play (script : Globals R) [5; 3; 5] initial = Some st /\
    forall p, elem_of p (points (trail st)) ->
      exists frame, elem_of frame [5; 3; 5] /\ traced script frame p.
Proof.
  destruct (play_in_range (script : Globals R) [5; 3; 5] initial) as [st Hplay].
  { change (N script) with 1200. repeat constructor; lia. }
  exists st. split; [exact Hplay|].
  exact (proj2 (trail_is_suffix_of_traced_points script [5; 3; 5] st Hplay)).
Defined.

(** ** The animation on repeat *)



(** ** The time grid over the reals *)

Lemma linspace_lookup {F : Type} `{Arith F} (start stop : F) num tv (i : nat) :
  1 < num -> linspace start stop num = Some tv -> Z.of_nat i < num - 1 ->
  tv !! i =
    Some (of_Z (Z.of_nat i) * ((stop - start) / of_Z (num - 1)) + start)%py.
Proof.
  intros Hnum Htv Hi. revert Htv. unfold linspace.
  rewrite (proj2 (Z.ltb_ge num 0)), (proj2 (Z.ltb_lt 1 num)),
    (proj2 (Z.ltb_lt 0 (num - 1))) by lia.
  intros [= <-].
  rewrite set_last_lookup_other
    by (rewrite !length_fmap, length_seqZ; lia).
  rewrite !list_lookup_fmap, lookup_seqZ_lt by lia. done.
Qed.

Section RealGrid.
Local Open Scope R_scope.
Variable g : Globals R.
Hypothesis HN : (2 <= N g)%Z.

Lemma grid_divisor_nonzero : IZR (N g - 1) <> 0.
Proof. apply not_0_IZR. lia. Qed.

Lemma grid_divisor_positive : 0 < IZR (N g - 1).
Proof. apply IZR_lt. lia. Qed.

(** Every grid value is its index times [T / (N - 1)], the last included. *)
Lemma grid_lookup tv (i : nat) :
  t_values g = Some tv -> (Z.of_nat i < N g)%Z ->
  tv !! i = Some (IZR (Z.of_nat i) * (IZR (T g) / IZR (N g - 1))).
Proof.
  intros Htv Hi. pose proof grid_divisor_nonzero as Hd.
  assert (H1 : (1 < N g)%Z) by lia.
  destruct (Z.eq_dec (Z.of_nat i) (N g - 1)%Z) as [Hlast|Hne].
  - replace i with (Z.to_nat (N g - 1)%Z) by lia.
    rewrite (linspace_last _ _ _ _ H1 Htv).
    rewrite Z2Nat.id by lia. f_equal. real_ops. by field.
  - rewrite (linspace_lookup _ _ _ _ i H1 Htv) by lia.
    f_equal. real_ops. by field.
Qed.

Lemma grid_lookup_inv tv (i : nat) t :
  t_values g = Some tv -> tv !! i = Some t ->
  (Z.of_nat i < N g)%Z /\ t = IZR (Z.of_nat i) * (IZR (T g) / IZR (N g - 1)).
Proof.
  intros Htv Ht. pose proof (t_values_len g tv Htv) as Hlen.
  pose proof (lookup_lt_Some _ _ _ Ht) as Hi. unfold len in Hlen.
  assert (Hi' : (Z.of_nat i < N g)%Z) by lia.
  split; [done|]. rewrite (grid_lookup tv i Htv Hi') in Ht. by injection Ht.
Qed.

Lemma grid_value_bounds tv (i : nat) t :
  (0 <= T g)%Z -> t_values g = Some tv -> tv !! i = Some t ->
  0 <= t <= IZR (T g).
Proof.
  intros HT Htv Ht. destruct (grid_lookup_inv tv i t Htv Ht) as [Hlt ->].
  pose proof grid_divisor_positive as Hd.
  assert (HTR : 0 <= IZR (T g)) by (by apply IZR_le).
  assert (Hstep : 0 <= IZR (T g) / IZR (N g - 1))
    by (apply Rmult_le_pos; [done|]; apply Rlt_le; by apply Rinv_0_lt_compat).
  assert (H0 : 0 <= IZR (Z.of_nat i)) by (apply IZR_le; lia).
  assert (H1 : IZR (Z.of_nat i) <= IZR (N g - 1)) by (apply IZR_le; lia).
  split; [by apply Rmult_le_pos|].
  replace (IZR (T g)) with (IZR (N g - 1) * (IZR (T g) / IZR (N g - 1)))
    at 2 by (field; lra).
  by apply Rmult_le_compat_r.
Qed.
End RealGrid.

(** X8.  Over the reals, with at least two frames: the grid value at index
    [i] is [i * T / (N - 1)] for every [0 <= i < N]; so for [T > 0] the
    grid increases strictly with the index, and every grid value lies in
    [[0, T]]. *)
Theorem time_grid_is_even_and_increasing (g : Globals R) :
  2 <= N g -> 0 < T g ->
  exists tv : list R,
    t_values g = Some tv /\
    (forall i : Z, 0 <= i < N g ->
       py_index tv i = Some (IZR i * (IZR (T g) / IZR (N g - 1)))%R) /\
    (forall (i j : nat) (ti tj : R),
       tv !! i = Some ti -> tv !! j = Some tj -> (i < j)%nat -> (ti < tj)%R) /\
    (forall t : R, elem_of t tv -> (0 <= t <= IZR (T g))%R).
Proof.
  intros HN HT.
  destruct (t_values_Some g ltac:(lia)) as (tv & Htv & Hlen).
  pose proof (grid_divisor_positive g HN) as Hd.
  assert (HTR : (0 < IZR (T g))%R) by (by apply IZR_lt).
  assert (Hstep : (0 < IZR (T g) / IZR (N g - 1))%R)
    by (by apply Rdiv_lt_0_compat).
  exists tv. split; [done|]. split; [|split].
  - intros i Hi. rewrite py_index_in_range by lia.
    rewrite (grid_lookup g HN tv (Z.to_nat i) Htv) by lia.
    by rewrite Z2Nat.id by lia.
  - intros i j ti tj Hti Htj Hij.
    destruct (grid_lookup_inv g HN tv i ti Htv Hti) as [_ ->].
    destruct (grid_lookup_inv g HN tv j tj Htv Htj) as [_ ->].
    apply Rmult_lt_compat_r; [done|]. apply IZR_lt. lia.
  - intros t Ht. apply list_elem_of_lookup in Ht as [i Hi].
    destruct (grid_lookup_inv g HN tv i t Htv Hi) as [Hlt ->].
    assert (H0 : (0 <= IZR (Z.of_nat i))%R) by (apply IZR_le; lia).
    assert (H1 : (IZR (Z.of_nat i) <= IZR (N g - 1))%R) by (apply IZR_le; lia).
    split; [apply Rmult_le_pos; lra|].
    replace (IZR (T g)) with (IZR (N g - 1) * (IZR (T g) / IZR (N g - 1)))%R
      at 2 by (field; lra).
    apply Rmult_le_compat_r; lra.
Qed.

Lemma time_grid_is_even_and_increasing_script :
  exists tv : list R,
    t_values (script : Globals R) = Some tv /\
    py_index tv 600 = Some (600 * (60 / 1199))%R /\
    forall t : R, elem_of t tv -> (0 <= t <= 60)%R.
Proof.
  destruct (time_grid_is_even_and_increasing (script : Globals R))
    as (tv & Htv & Hval & _ & Hin); [cbn; discriminate|reflexivity|].
  exists tv. split; [exact Htv|]. split; [|exact Hin].
  apply (Hval 600). change (N script) with 1200%Z. lia.
Defined.

(** X9.  Over the reals, with at least two frames: two consecutive grid
    values differ by [T / (N - 1)], and that is never the [1 / fps] that
    the comment of line 79 announces: [np.linspace(0, T, N)] spreads [N]
    values over [N - 1] steps. *)
Theorem time_grid_step_is_not_one_over_fps (g : Globals R) :
  2 <= N g ->
  exists tv : list R,
    t_values g = Some tv /\
    forall (i : nat) (t t' : R),
      tv !! i = Some t -> tv !! S i = Some t' ->
      (t' - t = IZR (T g) / IZR (N g - 1))%R /\
      (t' - t <> 1 / IZR (fps g))%R.
Proof.
  intros HN.
  destruct (t_values_Some g ltac:(lia)) as (tv & Htv & Hlen).
  pose proof (grid_divisor_nonzero g HN) as Hd.
  exists tv. split; [done|]. intros i t t' Ht Ht'.
  destruct (grid_lookup_inv g HN tv i t Htv Ht) as [_ ->].
  destruct (grid_lookup_inv g HN tv (S i) t' Htv Ht') as [_ ->].
  assert (Hstep : (IZR (Z.of_nat (S i)) * (IZR (T g) / IZR (N g - 1)) -
                   IZR (Z.of_nat i) * (IZR (T g) / IZR (N g - 1)) =
                   IZR (T g) / IZR (N g - 1))%R).
  { rewrite Nat2Z.inj_succ, succ_IZR. field. done. }
  split; [done|]. rewrite Hstep. intros Heq.
  assert (Hfps : fps g <> 0) by (unfold N in HN; lia).
  assert (HfR : IZR (fps g) <> 0%R) by (by apply not_0_IZR).
  assert (Hcross : (IZR (T g) * IZR (fps g) = IZR (N g - 1))%R).
  { apply (f_equal (fun r => (r * IZR (N g - 1) * IZR (fps g))%R)) in Heq.
    field_simplify in Heq; [|done..]. lra. }
  rewrite <- mult_IZR in Hcross. apply eq_IZR in Hcross. unfold N in *. lia.
Qed.

Lemma time_grid_step_is_not_one_over_fps_script :
  exists tv : list R,
    t_values (script : Globals R) = Some tv /\
    forall (i : nat) (t t' : R),
      tv !! i = Some t -> tv !! S i = Some t' ->
      (t' - t = 60 / 1199)%R /\ (t' - t <> 1 / 20)%R.
Proof.
  destruct (time_grid_step_is_not_one_over_fps (script : Globals R))
    as (tv & Htv & Hstep); [cbn; discriminate|].
  exists tv. split; [exact Htv|exact Hstep].
Defined.

(** ** The geometry of the drawing over the reals *)

Section RealGeometry.
Local Open Scope R_scope.

Lemma scaled_cos_bound (r a : R) : 0 <= r -> - r <= r * cos a <= r.
Proof. intros Hr. pose proof (COS_bound a). nra. Qed.

Lemma scaled_sin_bound (r a : R) : 0 <= r -> - r <= r * sin a <= r.
Proof. intros Hr. pose proof (SIN_bound a). nra. Qed.

Lemma on_circle (r a : R) : (r * cos a) * (r * cos a) + (r * sin a) * (r * sin a) = r * r.
Proof.
  pose proof (sin2_cos2 a) as Hsq. unfold Rsqr in Hsq.
  transitivity (r * r * (sin a * sin a + cos a * cos a)); [ring|].
  rewrite Hsq. ring.
Qed.
End RealGeometry.

(** X10.  Over the reals, with radii that are not negative and differ by
    less than the margin [1.5] of lines 58-59, everything [update] draws
    lies strictly inside the axes limits at every time: the traced point,
    the two slider markers and the two crank pins. *)
Theorem drawing_stays_in_view (g : Globals R) (t : R) :
  (0 <= Rx g)%R -> (0 <= Ry g)%R -> (Rabs (Rx g - Ry g) < 1.5)%R ->
  in_view g (sliders_intersection g t) /\
  in_view g ((sliders_intersection g t).1, 0%R) /\
  in_view g (0%R, (sliders_intersection g t).2) /\
  in_view g (crank_pin_x g t) /\
  in_view g (crank_pin_y g t).
Proof.
  intros HRx HRy Hdiff. apply Rabs_def2 in Hdiff as [Hd1 Hd2].
  unfold in_view, xlim, ylim. real_ops.
  pose proof (scaled_cos_bound (Rx g) (omega_x g * t + phi_x g) HRx).
  pose proof (scaled_sin_bound (Rx g) (omega_x g * t + phi_x g) HRx).
  pose proof (scaled_cos_bound (Ry g) (omega_y g * t + phi_y g) HRy).
  pose proof (scaled_sin_bound (Ry g) (omega_y g * t + phi_y g) HRy).
  repeat split; lra.
Qed.

Lemma drawing_stays_in_view_script :
  (0 <= Rx (script : Globals R))%R /\ (0 <= Ry (script : Globals R))%R /\
  (Rabs (Rx (script : Globals R) - Ry (script : Globals R)) < 1.5)%R /\
  in_view script (sliders_intersection script 1%R) /\
  in_view script (crank_pin_x script 1%R) /\
  in_view script (crank_pin_y script 1%R).
Proof.
  assert (HRx : (0 <= Rx (script : Globals R))%R)
    by (cbn [script Rx]; real_ops; lra).
  assert (HRy : (0 <= Ry (script : Globals R))%R)
    by (cbn [script Ry]; real_ops; lra).
  assert (Hd : (Rabs (Rx (script : Globals R) - Ry (script : Globals R)) < 1.5)%R).
  { cbn [script Rx Ry]. real_ops. apply Rabs_def1; lra. }
  destruct (drawing_stays_in_view script 1%R HRx HRy Hd)
    as (Hp & _ & _ & Hx & Hy).
  exact (conj HRx (conj HRy (conj Hd (conj Hp (conj Hx Hy))))).
Defined.

(** X11.  Over the reals, at every time each crank pin is on the circle of
    its radius about the origin, and the traced point is within [|Rx|] of
    the vertical rail and within [|Ry|] of the horizontal one. *)
Theorem crank_pins_on_circles (g : Globals R) (t : R) :
  ((crank_pin_x g t).1 * (crank_pin_x g t).1 +
   (crank_pin_x g t).2 * (crank_pin_x g t).2 = Rx g * Rx g)%R /\
  ((crank_pin_y g t).1 * (crank_pin_y g t).1 +
   (crank_pin_y g t).2 * (crank_pin_y g t).2 = Ry g * Ry g)%R /\
  (Rabs (sliders_intersection g t).1 <= Rabs (Rx g))%R /\
  (Rabs (sliders_intersection g t).2 <= Rabs (Ry g))%R.
Proof.
  real_ops. split; [apply on_circle|]. split; [apply on_circle|].
  split; rewrite Rabs_mult.
  - rewrite <- (Rmult_1_r (Rabs (Rx g))) at 2.
    apply Rmult_le_compat_l; [apply Rabs_pos|].
    apply Rabs_le, COS_bound.
  - rewrite <- (Rmult_1_r (Rabs (Ry g))) at 2.
    apply Rmult_le_compat_l; [apply Rabs_pos|].
    apply Rabs_le, SIN_bound.
Qed.

(** ** The steady state of the animation on repeat *)

Lemma last_points_concat_replicate {B : Type} (m k : nat) (l : list B) :
  (m <= k * length l)%nat ->
  last_points m (concat (replicate (S k) l)) =
  last_points m (concat (replicate k l)).
Proof.
  intros Hm. unfold last_points. simpl.
  rewrite length_app, length_concat_replicate.
  replace (length l + k * length l - m)%nat
    with (length l + (k * length l - m))%nat by lia.
  by rewrite drop_app_add.
Qed.



(** ** No two frames of a pass show the same configuration *)

(** X13.  Over the reals, with non-zero radii, a non-zero [omega_x], a
    ratio [omega_y / omega_x = p / q] in lowest terms with [p <> 0], at
    least two frames, [T > 0] and a run too short for [q] turns of the
    first crank ([T |omega_x| < 2 |q| PI]): two grid values at which both
    crank pins are at the same places are the same entry of the grid, so
    within one pass no two frames draw the same configuration of the
    cranks.  The constants the script stores meet this with
    [p / q = 910872158600853 / 2^49]. *)
Theorem frames_of_a_pass_are_distinct (g : Globals R) (p q : Z) :
  Rx g <> 0%R -> Ry g <> 0%R -> omega_x g <> 0%R ->
  p <> 0 -> q <> 0 -> Z.gcd q p = 1 ->
  (omega_y g * IZR q = IZR p * omega_x g)%R ->
  2 <= N g -> 0 < T g ->
  (IZR (T g) * Rabs (omega_x g) < 2 * IZR (Z.abs q) * PI)%R ->
  exists tv : list R,
    t_values g = Some tv /\
    forall (i j : nat) (ti tj : R),
      tv !! i = Some ti -> tv !! j = Some tj ->
      crank_pin_x g ti = crank_pin_x g tj ->
      crank_pin_y g ti = crank_pin_y g tj -> i = j.
Proof.
  intros HRx HRy Hwx Hp Hq Hgcd Hratio HN HT Hshort.
  destruct (t_values_Some g ltac:(lia)) as (tv & Htv & Hlen).
  exists tv. split; [done|]. intros i j ti tj Hti Htj Hx Hy.
  pose proof (grid_value_bounds g HN tv i ti ltac:(lia) Htv Hti) as Hbi.
  pose proof (grid_value_bounds g HN tv j tj ltac:(lia) Htv Htj) as Hbj.
  assert (Hd : (Rabs (ti - tj) <= IZR (T g))%R) by (apply Rabs_le; lra).
  pose proof (rational_crank_pins_injective g p q HRx HRy Hwx Hq Hgcd Hratio
                (IZR (T g)) ti tj Hshort Hd Hx Hy) as Heq.
  destruct (grid_lookup_inv g HN tv i ti Htv Hti) as [_ Hi].
  destruct (grid_lookup_inv g HN tv j tj Htv Htj) as [_ Hj].
  rewrite Hi, Hj in Heq.
  pose proof (grid_divisor_positive g HN) as Hdiv.
  assert (HTR : (0 < IZR (T g))%R) by (by apply IZR_lt).
  assert (Hstep : (0 < IZR (T g) / IZR (N g - 1))%R)
    by (by apply Rdiv_lt_0_compat).
  apply Rmult_eq_reg_r in Heq; [|lra].
  apply eq_IZR in Heq. lia.
Qed.

Lemma frames_of_a_pass_are_distinct_stored :
  exists tv : list R,
    t_values script_binary64 = Some tv /\
    forall (i j : nat) (ti tj : R),
      tv !! i = Some ti -> tv !! j = Some tj ->
      crank_pin_x script_binary64 ti = crank_pin_x script_binary64 tj ->
      crank_pin_y script_binary64 ti = crank_pin_y script_binary64 tj -> i = j.
Proof.
  destruct stored_hypotheses as (HRx & HRy & Hwx & Hgcd & Hratio).
  apply (frames_of_a_pass_are_distinct script_binary64
           910872158600853 562949953421312 HRx HRy Hwx);
    [discriminate|discriminate|exact Hgcd|exact Hratio|
     cbn; discriminate|reflexivity|].
  destruct stored_constants as (_ & _ & -> & _).
  pose proof PI_above_3 as Hpi.
  change (T script_binary64) with 60%Z.
  change (Z.abs 562949953421312) with 562949953421312%Z.
  rewrite Rabs_R1. lra.
Defined.

(** ** An empty grid *)

(** X14.  With [T = 0] and an [fps] that is not zero the grid is empty: every
    call of [update] raises [IndexError], whatever the frame index, and a
    pass of the animation draws no frame and leaves the trail as it was. *)
Theorem empty_grid_draws_nothing {F : Type} `{Arith F} (g : Globals F) :
  T g = 0 -> fps g <> 0 ->
  N g = 0 /\
  t_values g = Some [] /\
  (forall frame st, update g frame st = None) /\
  (forall st, frame_loop g st = Some (init st) /\
     trail (init st) = trail st).
Proof.
  intros HT Hfps.
  assert (HN : N g = 0) by (unfold N; lia).
  assert (Htv : t_values g = Some []) by (unfold t_values; by rewrite HN).
  split; [done|]. split; [done|]. split.
  - intros frame st. unfold update. rewrite Htv. simpl.
    destruct (py_index [] frame) as [t|] eqn:Ht; [|done].
    assert (Hs : is_Some (py_index ([] : list F) frame)) by (by exists t).
    apply py_index_is_Some_iff in Hs. unfold len in Hs. simpl in Hs. lia.
  - intros st. split; [|done]. unfold frame_loop, frames. by rewrite HN.
Qed.

Lemma empty_grid_draws_nothing_witness :
  T (with_limits (script : Globals R) 0 20 8000) = 0 /\
  fps (with_limits (script : Globals R) 0 20 8000) <> 0 /\
  t_values (with_limits (script : Globals R) 0 20 8000) = Some [] /\
  update (with_limits (script : Globals R) 0 20 8000) 0 initial = None /\
  update (with_limits (script : Globals R) 0 20 8000) (-1) initial = None.
Proof.
  assert (Hfps : fps (with_limits (script : Globals R) 0 20 8000) <> 0)
    by discriminate.
  destruct (empty_grid_draws_nothing (with_limits (script : Globals R) 0 20 8000)
              eq_refl Hfps) as (_ & Htv & Hup & _).
  exact (conj eq_refl (conj Hfps (conj Htv (conj (Hup 0 initial) (Hup (-1) initial))))).
Defined.
